(** * M5Core2 kalimba: the two sketches, embedded and verified

    The repository holds two Arduino sketches that draw a 17-tine kalimba on
    the M5Core2 touch screen and drive a UNIT-SYNTH over a serial link.

    - [Variant1] is the sketch whose header reads [M5Core2-Kalinba.ino]: one
      active tine, semitone shift by the two outer buttons.
    - [Variant2] is the sketch whose header reads [kalimba.ino]: slide aware,
      a short pluck on every bar crossed and a full note-on on release.

    Each sketch is embedded function by function.  The globals of a sketch
    become a record, one call of [loop()] becomes one monadic step over that
    record, and the calls into the vendor libraries (synth commands, LCD
    primitives, [delay]) are recorded, in order, in a trace.  Reading or
    writing an array outside its bounds makes the step fail. *)

From Stdlib Require Import ZArith Lia.
From stdpp Require Import base list list_numbers strings.

Local Open Scope Z_scope.

(** ** Fixed-width integers *)

Definition u8 (z : Z) : Z := z mod 256.
Definition u16 (z : Z) : Z := z mod 65536.
Definition s8 (z : Z) : Z := (z + 128) mod 256 - 128.
Definition s16 (z : Z) : Z := (z + 32768) mod 65536 - 32768.

(** ** Constants of the vendor headers

    [M5Core2.h] and [M5UnitSynth.h] are not part of the repository; the
    colour and note macros the sketches take from them are parameters. *)

Class Vendor := {
  BLACK : Z; WHITE : Z; TFT_BLACK : Z; TFT_WHITE : Z;
  NOTE_C2 : Z; NOTE_D3 : Z; NOTE_E3 : Z; NOTE_F3 : Z; NOTE_G3 : Z;
  NOTE_A3 : Z; NOTE_B3 : Z; NOTE_C4 : Z; NOTE_D4 : Z; NOTE_E4 : Z;
  NOTE_F4 : Z; NOTE_G4 : Z; NOTE_A4 : Z; NOTE_B4 : Z; NOTE_C5 : Z;
  NOTE_D5 : Z; NOTE_E5 : Z
}.

(** ** Calls into the collaborators *)

Inductive LcdCall : Type :=
  | fillScreen (color : Z)
  | fillRect (x y w h color : Z)
  | drawFastVLine (x y h color : Z)
  | drawFastHLine (x y w color : Z)
  | fillRoundRect (x y w h r color : Z)
  | drawRoundRect (x y w h r color : Z)
  | fillCircle (x y r color : Z)
  | drawCircle (x y r color : Z)
  | setTextSize (n : Z)
  | setTextColor (fg : Z) (bg : option Z)
  | setCursor (x y : Z)
  | print (s : string).

Inductive Event : Type :=
  | setNoteOn (channel pitch velocity : Z)
  | setNoteOff (channel pitch velocity : Z)
  | delay (ms : Z)
  | Lcd (c : LcdCall).

Definition is_synth (e : Event) : bool :=
  match e with
  | setNoteOn _ _ _ | setNoteOff _ _ _ => true
  | _ => false
  end.

Definition is_note_on (e : Event) : bool :=
  match e with setNoteOn _ _ _ => true | _ => false end.

Definition is_note_off (e : Event) : bool :=
  match e with setNoteOff _ _ _ => true | _ => false end.

(** The synth commands of a trace, in order. *)
Definition synth (tr : list Event) : list Event := List.filter is_synth tr.

(** What the synthesizer is left sounding by a trace of commands: a note-on
    starts its pitch, a note-off stops it, nothing else matters. *)
Definition synth_step (snd : list Z) (e : Event) : list Z :=
  match e with
  | setNoteOn _ p _ => p :: List.filter (fun q => negb (q =? p)) snd
  | setNoteOff _ p _ => List.filter (fun q => negb (q =? p)) snd
  | _ => snd
  end.

Definition sounding (snd : list Z) (tr : list Event) : list Z :=
  fold_left synth_step tr snd.

(** ** The step monad: state, trace, failure *)

Definition M (S A : Type) : Type := S -> option (A * S * list Event).

Section StepMonad.
Context {S : Type}.

Definition ret {A} (a : A) : M S A := fun s => Some (a, s, []).

Definition bind {A B} (m : M S A) (f : A -> M S B) : M S B :=
  fun s =>
    match m s with
    | None => None
    | Some (a, s1, t1) =>
        match f a s1 with
        | None => None
        | Some (b, s2, t2) => Some (b, s2, t1 ++ t2)
        end
    end.

Definition fail {A} : M S A := fun _ => None.
Definition get : M S S := fun s => Some (s, s, []).
Definition put (s : S) : M S unit := fun _ => Some (tt, s, []).
Definition emit (e : Event) : M S unit := fun s => Some (tt, s, [e]).
Definition lcd (c : LcdCall) : M S unit := emit (Lcd c).

(** [when c m] is [if (c) { m }]. *)
Definition when (c : bool) (m : M S unit) : M S unit :=
  if c then m else ret tt.

(** [a[i]] for a C array held as a list: defined inside the bounds only. *)
Definition elem {A} (a : list A) (i : Z) : M S A :=
  fun s =>
    if 0 <=? i then
      match a !! Z.to_nat i with
      | Some v => Some (v, s, [])
      | None => None
      end
    else None.

(** [for (i = lo; i < lo + n; i++) body(i)]. *)
Fixpoint for_each (l : list Z) (body : Z -> M S unit) : M S unit :=
  match l with
  | [] => ret tt
  | i :: l' => bind (body i) (fun _ => for_each l' body)
  end.
End StepMonad.

Declare Scope step_scope.
Delimit Scope step_scope with step.
Notation "x <- m ;; k" := (bind m (fun x => k))
  (at level 100, m at next level, right associativity) : step_scope.
Notation "m ;;; k" := (bind m (fun _ => k))
  (at level 100, right associativity) : step_scope.
Local Open Scope step_scope.

(** Running a list of per-tick steps one after the other. *)
Fixpoint ticks {S I : Type} (step : I -> M S unit) (inputs : list I) : M S unit :=
  match inputs with
  | [] => ret tt
  | i :: rest => step i ;;; ticks step rest
  end.

(** ** Variant 1: single active tine with semitone shift *)

Module Variant1.
Section WithVendor.
Context `{Vendor}.

(** Kalimba tuning, indexed by physical position. *)
Definition tine_notes : list Z :=
  [86; 83; 79; 76; 72; 69; 65; 62; 60; 64; 67; 71; 74; 77; 81; 84; 88].

(** The globals of the sketch, and the function-local [static prev_offset]
    of [drawModeIndicator]. *)
Record State : Type := mkState {
  key_pressed : list bool;
  active_note_pitch : Z;
  active_tine : Z;
  prev_offset : Z
}.

Definition DISPLAY_WIDTH : Z := 320.
Definition DISPLAY_HEIGHT : Z := 240.

Definition TINE_WIDTH : Z := 16.
Definition TINE_GAP : Z := 2.
Definition TINE_PITCH : Z := u16 (TINE_WIDTH + TINE_GAP).
Definition TINE_START_X : Z :=
  u16 ((DISPLAY_WIDTH - (17 * TINE_PITCH - TINE_GAP)) `quot` 2).
Definition BRIDGE_Y : Z := 22.
Definition TINE_CENTER_HEIGHT : Z := 150.
Definition TINE_EDGE_STEP : Z := 8.

Definition COL_WOOD : Z := 0x4A08.
Definition COL_WOOD_LIGHT : Z := 0x6B49.
Definition COL_TINE : Z := 0xC618.
Definition COL_TINE_EDGE : Z := 0x9CD3.
Definition COL_BRIDGE : Z := 0xFFFF.
Definition COL_PRESSED : Z := 0xFFE0.
Definition COL_HOLE : Z := 0x2104.

Definition note_names : list string :=
  ["C"; "C#"; "D"; "D#"; "E"; "F"; "F#"; "G"; "G#"; "A"; "A#"; "B"]%string.

(** [uint16_t getTineHeight(uint8_t pos)] *)
Definition getTineHeight (pos : Z) : Z :=
  let dist := pos - 8 in
  let dist := if dist <? 0 then - dist else dist in
  u16 (TINE_CENTER_HEIGHT - dist * TINE_EDGE_STEP).

(** [uint16_t getTineX(uint8_t pos)] *)
Definition getTineX (pos : Z) : Z :=
  u16 (TINE_START_X + pos * TINE_PITCH).

(** The [for] loop of [getKeyAtPosition]: [n] positions are left to scan,
    starting at [pos]. *)
Fixpoint getKeyAtPosition_scan (n : nat) (pos x y : Z) : Z :=
  match n with
  | O => -1
  | Datatypes.S n' =>
      let tx := getTineX pos in
      let th := getTineHeight pos in
      let ty_bottom := u16 (BRIDGE_Y + th) in
      if (tx <=? x) && (x <? tx + TINE_WIDTH) && (BRIDGE_Y <=? y) && (y <=? ty_bottom)
      then pos
      else getKeyAtPosition_scan n' (u8 (pos + 1)) x y
  end.

(** [int getKeyAtPosition(uint16_t x, uint16_t y)] *)
Definition getKeyAtPosition (x y : Z) : Z :=
  if y <? BRIDGE_Y then -1 else getKeyAtPosition_scan 17 0 x y.

(** [void drawTine(uint8_t pos, bool pressed)] *)
Definition drawTine (pos : Z) (pressed : bool) : M State unit :=
  let x := getTineX pos in
  let h := getTineHeight pos in
  let color := if pressed then COL_PRESSED else COL_TINE in
  let edge_color := if pressed then 0xF700 else COL_TINE_EDGE in
  lcd (fillRect x BRIDGE_Y TINE_WIDTH h color) ;;;
  lcd (drawFastVLine x BRIDGE_Y h edge_color) ;;;
  lcd (drawFastVLine (x + TINE_WIDTH - 1) BRIDGE_Y h edge_color) ;;;
  lcd (fillRoundRect x (BRIDGE_Y + h - 6) TINE_WIDTH 6 3 color) ;;;
  lcd (drawRoundRect x (BRIDGE_Y + h - 6) TINE_WIDTH 6 3 edge_color) ;;;
  note <- elem tine_notes pos ;;
  let note_num := u8 (note `rem` 12) in
  lcd (setTextSize 1) ;;;
  lcd (setTextColor (if pressed then BLACK else 0x4208) None) ;;;
  lcd (setCursor (x + 2) (BRIDGE_Y + h - 14)) ;;;
  name <- elem note_names note_num ;;
  lcd (print name).

(** [void drawModeIndicator(int8_t offset)] *)
Definition drawModeIndicator (offset : Z) : M State unit :=
  s <- get ;;
  if offset =? prev_offset s then ret tt
  else
    put (mkState (key_pressed s) (active_note_pitch s) (active_tine s) offset) ;;;
    lcd (fillRect (DISPLAY_WIDTH - 30) 2 28 16 COL_WOOD) ;;;
    lcd (setTextSize 2) ;;;
    if offset =? -1 then
      lcd (setTextColor 0x07FF None) ;;;
      lcd (setCursor (DISPLAY_WIDTH - 24) 3) ;;;
      lcd (print "b")
    else if offset =? 1 then
      lcd (setTextColor 0xF800 None) ;;;
      lcd (setCursor (DISPLAY_WIDTH - 24) 3) ;;;
      lcd (print "#")
    else ret tt.

(** Reads and writes of the globals. *)
Definition get_key_pressed (i : Z) : M State bool :=
  s <- get ;; elem (key_pressed s) i.

Definition set_key_pressed (i : Z) (v : bool) : M State unit :=
  s <- get ;;
  _ <- elem (key_pressed s) i ;;
  put (mkState (<[Z.to_nat i := v]> (key_pressed s))
               (active_note_pitch s) (active_tine s) (prev_offset s)).

Definition set_active_tine (v : Z) : M State unit :=
  s <- get ;;
  put (mkState (key_pressed s) (active_note_pitch s) (s8 v) (prev_offset s)).

Definition set_active_note_pitch (v : Z) : M State unit :=
  s <- get ;;
  put (mkState (key_pressed s) (u8 v) (active_tine s) (prev_offset s)).

(** What one [M5.update()] reports: the two outer buttons, and the touch
    controller's [changed], [points] and [point[0]]. *)
Record Input : Type := mkInput {
  BtnA_isPressed : bool;
  BtnC_isPressed : bool;
  Touch_changed : bool;
  Touch_points : Z;
  Touch_point0 : Z * Z
}.

(** [loop()], lines 122-124: the semitone offset derived from the buttons. *)
Definition loop_semitone_offset (inp : Input) : Z :=
  let semitone_offset := 0 in
  let semitone_offset := if BtnA_isPressed inp then s8 (-1) else semitone_offset in
  let semitone_offset := if BtnC_isPressed inp then s8 1 else semitone_offset in
  semitone_offset.

(** [loop()], lines 129-148: a changed touch that lands on a free tine. *)
Definition loop_touch (inp : Input) (semitone_offset : Z) : M State unit :=
  when (Touch_changed inp)
    (when (0 <? Touch_points inp)
      (let tp := Touch_point0 inp in
       let pos := getKeyAtPosition (u16 (fst tp)) (u16 (snd tp)) in
       free <- (if 0 <=? pos
                then b <- get_key_pressed pos ;; ret (negb b)
                else ret false) ;;
       when free
         (s <- get ;;
          when ((0 <=? active_tine s) && negb (active_tine s =? pos))
            (set_key_pressed (active_tine s) false ;;;
             emit (setNoteOff 0 (active_note_pitch s) 0) ;;;
             drawTine (u8 (active_tine s)) false) ;;;
          set_key_pressed pos true ;;;
          set_active_tine pos ;;;
          note <- elem tine_notes pos ;;
          set_active_note_pitch (note + semitone_offset) ;;;
          s <- get ;;
          emit (setNoteOn 0 (active_note_pitch s) 100) ;;;
          drawTine (u8 pos) true))).

(** [loop()], lines 150-161: the check for touch release. *)
Definition loop_release (inp : Input) : M State unit :=
  when (Touch_points inp =? 0)
    (for_each (seqZ 0 17)
       (fun i =>
          b <- get_key_pressed i ;;
          when b
            (set_key_pressed i false ;;;
             s <- get ;;
             emit (setNoteOff 0 (active_note_pitch s) 0) ;;;
             drawTine (u8 i) false)) ;;;
     set_active_tine (-1) ;;;
     set_active_note_pitch 0).

(** [void loop()] *)
Definition loop (inp : Input) : M State unit :=
  let semitone_offset := loop_semitone_offset inp in
  drawModeIndicator semitone_offset ;;;
  loop_touch inp semitone_offset ;;;
  loop_release inp ;;;
  emit (delay 10).

(** [void drawKalimba()]; the wood-grain loop runs over y = 40, 48, .., 232. *)
Definition drawKalimba : M State unit :=
  lcd (fillScreen COL_WOOD) ;;;
  for_each ((fun k => 40 + 8 * k) <$> seqZ 0 25)
    (fun y => lcd (drawFastHLine 0 y DISPLAY_WIDTH COL_WOOD_LIGHT)) ;;;
  let hole_cx := u16 (DISPLAY_WIDTH `quot` 2) in
  let hole_cy := u16 (DISPLAY_HEIGHT - 20) in
  lcd (fillCircle hole_cx hole_cy 18 COL_HOLE) ;;;
  lcd (drawCircle hole_cx hole_cy 18 COL_WOOD_LIGHT) ;;;
  lcd (drawCircle hole_cx hole_cy 15 COL_WOOD_LIGHT) ;;;
  lcd (setTextSize 2) ;;;
  lcd (setTextColor WHITE None) ;;;
  lcd (setCursor (DISPLAY_WIDTH `quot` 2 - 48) 3) ;;;
  lcd (print "KALIMBA") ;;;
  lcd (fillRect (TINE_START_X - 4) (BRIDGE_Y - 3) (17 * TINE_PITCH + 6) 5 COL_BRIDGE) ;;;
  for_each (seqZ 0 17) (fun pos => drawTine pos false).

(** The globals as their initialisers leave them. *)
Definition init : State :=
  mkState (replicate 17 false) 0 (-1) 0.

(** [void setup()], without the hardware bring-up. *)
Definition setup : M State unit := drawKalimba.
End WithVendor.
End Variant1.

(** ** Variant 2: slide aware, short pluck and deferred full note *)

Module Variant2.
Section WithVendor.
Context `{Vendor}.

(** [uint8_t notes[17]] *)
Definition notes : list Z :=
  u8 <$> [NOTE_D5; NOTE_B4; NOTE_G4; NOTE_E4; NOTE_C4; NOTE_A3; NOTE_F3; NOTE_D3; NOTE_C2;
          NOTE_E3; NOTE_G3; NOTE_B3; NOTE_D4; NOTE_F4; NOTE_A4; NOTE_C5; NOTE_E5].

Definition noteNames : list string :=
  ["D4"; "B4"; "G4"; "E4"; "C4"; "A3"; "F3"; "D3"; "C2";
   "E5"; "G3"; "B3"; "D4"; "F4"; "A4"; "C5"; "E5"]%string.

(** Bar geometry; these globals are never assigned after start-up. *)
Definition barCount : Z := 17.
Definition barWidth : Z := 320 `quot` barCount.
Definition maxHeight : Z := 200.
Definition stepHeight : Z := 6.
Definition centerIndex : Z := barCount `quot` 2.
Definition barY : Z := 20.
Definition barColor : Z := TFT_WHITE.
Definition highlightColor : Z := 0xFFE0.

(** The globals [loop] assigns. *)
Record State : Type := mkState {
  selectedBar : Z;
  lastPressedBar : Z;
  wasPressed : bool
}.

Definition init : State := mkState (-1) (-1) false.

Definition set_selectedBar (v : Z) : M State unit :=
  s <- get ;; put (mkState v (lastPressedBar s) (wasPressed s)).
Definition set_lastPressedBar (v : Z) : M State unit :=
  s <- get ;; put (mkState (selectedBar s) v (wasPressed s)).
Definition set_wasPressed (v : bool) : M State unit :=
  s <- get ;; put (mkState (selectedBar s) (lastPressedBar s) v).

(** [int getBarHeight(int index)] *)
Definition getBarHeight (index : Z) : Z :=
  let dist := Z.abs (index - centerIndex) in
  let height := maxHeight - dist * stepHeight in
  height.

(** [void drawSingleBar(int index, uint32_t color)] *)
Definition drawSingleBar (index : Z) (color : Z) : M State unit :=
  let barH := getBarHeight index in
  let x := index * barWidth in
  lcd (fillRect x barY (barWidth - 1) barH color) ;;;
  let textX := x + barWidth `quot` 2 in
  let textY := barY + barH - 60 in
  lcd (setTextColor TFT_BLACK (Some color)) ;;;
  lcd (setTextSize 1) ;;;
  name <- elem noteNames index ;;
  let textWidth := s16 (Z.of_nat (String.length name) * 6) in
  lcd (setCursor (textX - textWidth `quot` 2) textY) ;;;
  name <- elem noteNames index ;;
  lcd (print name).

(** [void drawBars()] *)
Definition drawBars : M State unit :=
  for_each (seqZ 0 barCount) (fun i => drawSingleBar i barColor).

(** [void highlightBar(int index)] *)
Definition highlightBar (index : Z) : M State unit :=
  drawSingleBar index highlightColor ;;;
  set_selectedBar index.

(** [void playNoteShort(int index)] *)
Definition playNoteShort (index : Z) : M State unit :=
  when ((0 <=? index) && (index <? barCount))
    (note <- elem notes index ;;
     emit (setNoteOn 0 note 127) ;;;
     emit (delay 5) ;;;
     emit (setNoteOff 0 note 127)).

(** [void playNote(int index, bool onoff)] *)
Definition playNote (index : Z) (onoff : bool) : M State unit :=
  when ((0 <=? index) && (index <? barCount))
    (note <- elem notes index ;;
     if onoff then emit (setNoteOn 0 note 127)
     else emit (setNoteOff 0 note 127)).

(** What one [M5.update()] reports: [ispressed()] and [getPressPoint()]. *)
Record Input : Type := mkInput {
  Touch_ispressed : bool;
  Touch_getPressPoint : Z * Z
}.

(** [loop()], lines 81-113: the screen is being touched. *)
Definition loop_pressed (inp : Input) : M State unit :=
  let touchPoint := Touch_getPressPoint inp in
  let x := fst touchPoint in
  let y := snd touchPoint in
  let barIndex := x `quot` barWidth in
  if (0 <=? barIndex) && (barIndex <? barCount) then
    let barH := getBarHeight barIndex in
    if (barY <=? y) && (y <=? barY + barH) then
      s <- get ;;
      when (negb (selectedBar s =? barIndex))
        (when ((0 <=? selectedBar s) && (selectedBar s <? barCount))
           (drawSingleBar (selectedBar s) barColor) ;;;
         highlightBar barIndex ;;;
         playNoteShort barIndex) ;;;
      set_lastPressedBar barIndex
    else
      s <- get ;;
      when (negb (selectedBar s =? -1))
        (drawSingleBar (selectedBar s) barColor ;;;
         set_selectedBar (-1))
  else
    s <- get ;;
    when (negb (selectedBar s =? -1))
      (drawSingleBar (selectedBar s) barColor ;;;
       set_selectedBar (-1)).

(** [loop()], lines 115-130: the screen is not being touched. *)
Definition loop_released : M State unit :=
  s <- get ;;
  when (wasPressed s)
    (when (negb (lastPressedBar s =? -1))
       (when (negb (selectedBar s =? -1))
          (drawSingleBar (selectedBar s) barColor ;;;
           set_selectedBar (-1)) ;;;
        s <- get ;;
        playNote (lastPressedBar s) true ;;;
        set_lastPressedBar (-1))).

(** [void loop()] *)
Definition loop (inp : Input) : M State unit :=
  let isPressed := Touch_ispressed inp in
  (if isPressed then loop_pressed inp else loop_released) ;;;
  set_wasPressed isPressed.

(** The hit test of [loop_pressed] on its own: the bar whose column holds
    [x] and whose span below [barY] holds [y]. *)
Definition barAt (x y : Z) : option Z :=
  let barIndex := x `quot` barWidth in
  if (0 <=? barIndex) && (barIndex <? barCount) then
    let barH := getBarHeight barIndex in
    if (barY <=? y) && (y <=? barY + barH) then Some barIndex else None
  else None.

(** [void setup()], without the hardware bring-up. *)
Definition setup : M State unit :=
  lcd (fillScreen TFT_BLACK) ;;;
  lcd (setTextColor TFT_WHITE (Some TFT_BLACK)) ;;;
  lcd (setTextSize 2) ;;;
  lcd (setCursor 10 (barY + maxHeight + 30)) ;;;
  lcd (print "Electronic Kalimba - Press, slide and release!") ;;;
  drawBars.
End WithVendor.
End Variant2.

(** ** Vocabulary of the statements *)

(** The trace a step leaves when run from [s] (empty when it fails). *)
Definition trace_of {S A : Type} (m : M S A) (s : S) : list Event :=
  match m s with
  | Some (_, _, t) => t
  | None => []
  end.

(** The largest number of notes sounding at any moment while [tr] plays,
    starting with [snd] sounding. *)
Fixpoint peak (snd : list Z) (tr : list Event) : nat :=
  match tr with
  | [] => length snd
  | e :: tr' => Nat.max (length snd) (peak (synth_step snd e) tr')
  end.

(** Header values to run the sketches on concrete inputs: RGB565 black and
    white, MIDI note numbers with C4 = 60. *)
Definition midi : Vendor := {|
  BLACK := 0x0000; WHITE := 0xFFFF; TFT_BLACK := 0x0000; TFT_WHITE := 0xFFFF;
  NOTE_C2 := 36; NOTE_D3 := 50; NOTE_E3 := 52; NOTE_F3 := 53; NOTE_G3 := 55;
  NOTE_A3 := 57; NOTE_B3 := 59; NOTE_C4 := 60; NOTE_D4 := 62; NOTE_E4 := 64;
  NOTE_F4 := 65; NOTE_G4 := 67; NOTE_A4 := 69; NOTE_B4 := 71; NOTE_C5 := 72;
  NOTE_D5 := 74; NOTE_E5 := 76
|}.

Module Spec1.
Import Variant1.
Section WithVendor.
Context `{Vendor}.

(** The pitch table read at a position. *)
Definition basePitch (pos : Z) : Z := nth (Z.to_nat pos) tine_notes 0.

(** The tine under the first touch point, as [loop_touch] computes it. *)
Definition hit (inp : Input) : Z :=
  getKeyAtPosition (u16 (fst (Touch_point0 inp))) (u16 (snd (Touch_point0 inp))).

(** The pressed flags with exactly tine [t] set (none for [t = -1]). *)
Definition one_hot (t : Z) : list bool := (fun i => i =? t) <$> seqZ 0 17.

(** The invariant of the globals. *)
Definition wf (s : State) : Prop :=
  -1 <= active_tine s <= 16 /\ key_pressed s = one_hot (active_tine s).

(** The states the sketch can be in between two calls of [loop]. *)
Inductive reachable : State -> Prop :=
  | reach_setup s tr :
      setup init = Some (tt, s, tr) -> reachable s
  | reach_loop s inp s' tr :
      reachable s -> loop inp s = Some (tt, s', tr) -> reachable s'.

(** The number of pressed flags that are set. *)
Definition pressed_count (s : State) : nat :=
  length (List.filter (fun b : bool => b) (key_pressed s)).

(** The LCD calls of [drawTine] and of [drawModeIndicator]. *)
Definition drawTine_trace (pos : Z) (pressed : bool) : list Event :=
  trace_of (drawTine pos pressed) init.

Definition mode_trace (offset prev : Z) : list Event :=
  trace_of (drawModeIndicator offset) (mkState [] 0 (-1) prev).

(** The note the synthesizer holds for a state: the active pitch, if any. *)
Definition sounding_of (s : State) : list Z :=
  if 0 <=? active_tine s then [active_note_pitch s] else [].

(** A touch lands on tine [P]: the touch changed, a point is reported and
    it hits [P]. *)
Definition lands (inp : Input) (P : Z) : Prop :=
  Touch_changed inp = true /\ 0 < Touch_points inp /\ hit inp = P /\ 0 <= P.

(** A touch stays on tine [P]. *)
Definition stays (P : Z) (inp : Input) : Prop :=
  0 < Touch_points inp /\ hit inp = P.

(** The state after a press of [pos] with offset [off], and after a lift. *)
Definition pressed_state (pos off prev : Z) : State :=
  mkState (one_hot pos) (basePitch pos + off) pos prev.

Definition idle_state (prev : Z) : State :=
  mkState (one_hot (-1)) 0 (-1) prev.

(** The calls of the block that releases the previously active note. *)
Definition unpress_trace (s : State) : list Event :=
  if 0 <=? active_tine s
  then setNoteOff 0 (active_note_pitch s) 0 :: drawTine_trace (active_tine s) false
  else [].

Definition press_trace (s : State) (pos off : Z) : list Event :=
  unpress_trace s ++ setNoteOn 0 (basePitch pos + off) 100 :: drawTine_trace pos true.

(** When [loop_touch] starts a note. *)
Definition fires (s : State) (inp : Input) : bool :=
  Touch_changed inp && (0 <? Touch_points inp) && (0 <=? hit inp)
  && negb (hit inp =? active_tine s).

(** One call of [loop] on a well-formed state, in closed form. *)
Definition with_prev (s : State) (offset : Z) : State :=
  mkState (key_pressed s) (active_note_pitch s) (active_tine s) offset.

Definition tick_state (s : State) (inp : Input) : State :=
  let off := loop_semitone_offset inp in
  if fires s inp then pressed_state (hit inp) off off
  else if Touch_points inp =? 0 then idle_state off
  else with_prev s off.

Definition tick_trace (s : State) (inp : Input) : list Event :=
  let off := loop_semitone_offset inp in
  mode_trace off (prev_offset s) ++
  (if fires s inp then press_trace s (hit inp) off
   else if Touch_points inp =? 0 then unpress_trace s
   else []) ++
  [delay 10].

(** The sketch from power-up: [setup], then one [loop] per input. *)
Definition boot (inputs : list Input) : M State unit :=
  setup ;;; ticks loop inputs.
End WithVendor.
End Spec1.

Module Spec2.
Import Variant2.
Section WithVendor.
Context `{Vendor}.

(** The pitch table read at a bar. *)
Definition note (index : Z) : Z := nth (Z.to_nat index) notes 0.

(** The bar under the press point, as [loop_pressed] computes it. *)
Definition hit (inp : Input) : option Z :=
  barAt (fst (Touch_getPressPoint inp)) (snd (Touch_getPressPoint inp)).

(** The invariant of the globals: both stored indices are -1 or a bar. *)
Definition wf (s : State) : Prop :=
  -1 <= selectedBar s <= 16 /\ -1 <= lastPressedBar s <= 16.

(** The states the sketch can be in between two calls of [loop]. *)
Inductive reachable : State -> Prop :=
  | reach_setup s tr :
      setup init = Some (tt, s, tr) -> reachable s
  | reach_loop s inp s' tr :
      reachable s -> loop inp s = Some (tt, s', tr) -> reachable s'.

(** The LCD calls of [drawSingleBar]. *)
Definition drawSingleBar_trace (index color : Z) : list Event :=
  trace_of (drawSingleBar index color) init.

(** Redrawing the selected bar, if any, in its resting colour. *)
Definition unselect_trace (s : State) : list Event :=
  if selectedBar s =? -1 then []
  else drawSingleBar_trace (selectedBar s) barColor.

(** The short note of [playNoteShort]. *)
Definition pluck (index : Z) : list Event :=
  [setNoteOn 0 (note index) 127; delay 5; setNoteOff 0 (note index) 127].

(** The same, seen by the synthesizer. *)
Definition pluck_synth (index : Z) : list Event :=
  [setNoteOn 0 (note index) 127; setNoteOff 0 (note index) 127].

(** The screen is touched on bar [B]; the screen is touched off every bar;
    the screen is not touched. *)
Definition on_bar (B : Z) (inp : Input) : Prop :=
  Touch_ispressed inp = true /\ hit inp = Some B.

Definition off_bars (inp : Input) : Prop :=
  Touch_ispressed inp = true /\ hit inp = None.

Definition no_touch (inp : Input) : Prop :=
  Touch_ispressed inp = false.

(** One call of [loop] on a well-formed state, in closed form. *)
Definition fires_on_release (s : State) : bool :=
  wasPressed s && negb (lastPressedBar s =? -1).

Definition tick_state (s : State) (inp : Input) : State :=
  if Touch_ispressed inp then
    match hit inp with
    | Some b => mkState b b true
    | None => mkState (-1) (lastPressedBar s) true
    end
  else if fires_on_release s then mkState (-1) (-1) false
  else mkState (selectedBar s) (lastPressedBar s) false.

Definition tick_trace (s : State) (inp : Input) : list Event :=
  if Touch_ispressed inp then
    match hit inp with
    | Some b =>
        if selectedBar s =? b then []
        else unselect_trace s ++ drawSingleBar_trace b highlightColor ++ pluck b
    | None => unselect_trace s
    end
  else if fires_on_release s
       then unselect_trace s ++ [setNoteOn 0 (note (lastPressedBar s)) 127]
  else [].

(** The sketch from power-up: [setup], then one [loop] per input. *)
Definition boot (inputs : list Input) : M State unit :=
  setup ;;; ticks loop inputs.
End WithVendor.
End Spec2.

(** ** Vocabulary of the further properties *)

(** A trace in which note-on and note-off alternate and every note-off names
    the pitch of the note-on before it: [paired cur tr] is the note left open
    after [tr] when [cur] was open before it, and nothing when [tr] breaks
    the pairing. *)
Fixpoint paired (cur : option Z) (tr : list Event) : option (option Z) :=
  match tr with
  | [] => Some cur
  | setNoteOn _ p _ :: tr' =>
      match cur with
      | None => paired (Some p) tr'
      | Some _ => None
      end
  | setNoteOff _ p _ :: tr' =>
      match cur with
      | Some q => if q =? p then paired None tr' else None
      | None => None
      end
  | _ :: tr' => paired cur tr'
  end.

(** A synth trace made of plucks (a note-on directly followed by the
    note-off of the same pitch) and of note-ons that no note-off follows. *)
Fixpoint plucks_and_ons (tr : list Event) : bool :=
  match tr with
  | [] => true
  | setNoteOn _ p _ :: tr' =>
      match tr' with
      | setNoteOff _ q _ :: tr'' => (p =? q) && plucks_and_ons tr''
      | _ => plucks_and_ons tr'
      end
  | _ => false
  end.

(** Variant 1: the note a state holds open, if any. *)
Definition active_note (s : Variant1.State) : option Z :=
  if 0 <=? Variant1.active_tine s then Some (Variant1.active_note_pitch s) else None.

(** Variant 1: the active pitch is that of the active tine, shifted by at
    most a semitone, and 0 when no tine is active. *)
Definition tuned (s : Variant1.State) : Prop :=
  (Variant1.active_tine s = -1 /\ Variant1.active_note_pitch s = 0) \/
  (0 <= Variant1.active_tine s <= 16 /\
   Spec1.basePitch (Variant1.active_tine s) - 1 <= Variant1.active_note_pitch s
     <= Spec1.basePitch (Variant1.active_tine s) + 1).

(** Variant 1: a synth command on channel 0 whose pitch lies in [lo .. hi],
    with the velocity the sketch uses for it. *)
Definition note_within (lo hi : Z) (e : Event) : Prop :=
  match e with
  | setNoteOn ch p v => ch = 0 /\ v = 100 /\ lo <= p <= hi
  | setNoteOff ch p v => ch = 0 /\ v = 0 /\ lo <= p <= hi
  | _ => False
  end.

(** Variant 1: the finger is down, on tine [P] or on no tine at all. *)
Definition wanders (P : Z) (inp : Variant1.Input) : Prop :=
  0 < Variant1.Touch_points inp /\ (Spec1.hit inp = P \/ Spec1.hit inp = -1).

(** Variant 2: the last bar hit by a run of touches, going on from [acc];
    -1 stands for none, as in the sketch. *)
Definition last_bar_from (acc : Z) (l : list Variant2.Input) : Z :=
  fold_left (fun acc inp => match Spec2.hit inp with Some b => b | None => acc end)
            l acc.

Definition last_bar (l : list Variant2.Input) : Z := last_bar_from (-1) l.

(** Variant 2: a highlighted bar is always the last bar pressed. *)
Definition coherent (s : Variant2.State) : Prop :=
  Variant2.selectedBar s = -1 \/ Variant2.selectedBar s = Variant2.lastPressedBar s.

(** * Proofs *)

(** ** Ranges of positions *)

Lemma Forall_seqZ_range (P : Z -> Prop) (lo n : Z) :
  Forall P (seqZ lo n) -> forall i, lo <= i < lo + n -> P i.
Proof.
  intros HP i Hi. rewrite Forall_forall in HP. apply HP.
  apply elem_of_seqZ. lia.
Qed.

(** Case analysis of a property over the positions [lo .. lo + n - 1]. *)
Ltac each_position i lo n :=
  pattern i; apply (Forall_seqZ_range _ lo n); [| lia];
  let l := eval vm_compute in (seqZ lo n) in
  change (seqZ lo n) with l; repeat apply Forall_cons_2; try apply Forall_nil_2.

(** ** The step monad *)

Section MonadFacts.
Context {S : Type}.

Lemma bind_run {A B} (m : M S A) (f : A -> M S B) s a s1 t1 :
  m s = Some (a, s1, t1) ->
  bind m f s =
    match f a s1 with
    | None => None
    | Some (b, s2, t2) => Some (b, s2, t1 ++ t2)
    end.
Proof. intros E. unfold bind. now rewrite E. Qed.

Lemma bind_silent {A B} (m : M S A) (f : A -> M S B) s a :
  m s = Some (a, s, []) -> bind m f s = f a s.
Proof.
  intros E. rewrite (bind_run _ _ _ _ _ _ E).
  destruct (f a s) as [[[b s2] t2]|]; reflexivity.
Qed.

Lemma bind_ok {A B} (m : M S A) (f : A -> M S B) s a s1 t1 b s2 t2 :
  m s = Some (a, s1, t1) -> f a s1 = Some (b, s2, t2) ->
  bind m f s = Some (b, s2, t1 ++ t2).
Proof. intros E1 E2. rewrite (bind_run _ _ _ _ _ _ E1). now rewrite E2. Qed.

Lemma ticks_app {I} (step : I -> M S unit) l1 l2 s s1 t1 :
  ticks step l1 s = Some (tt, s1, t1) ->
  ticks step (l1 ++ l2) s =
    match ticks step l2 s1 with
    | None => None
    | Some (b, s2, t2) => Some (b, s2, t1 ++ t2)
    end.
Proof.
  revert s s1 t1. induction l1 as [|i l1 IH]; intros s s1 t1 E; simpl in *.
  - injection E as <- <-. destruct (ticks step l2 s) as [[[b s2] t2]|]; reflexivity.
  - unfold bind in *. destruct (step i s) as [[[[] sa] ta]|]; [|discriminate].
    destruct (ticks step l1 sa) as [[[[] sb] tb]|] eqn:E1; [|discriminate].
    injection E as <- <-. rewrite (IH _ _ _ E1).
    destruct (ticks step l2 sb) as [[[b s2] t2]|]; [|reflexivity].
    now rewrite app_assoc.
Qed.
End MonadFacts.

(** ** Traces and the synthesizer *)

Lemma synth_app (a b : list Event) : synth (a ++ b) = synth a ++ synth b.
Proof. apply List.filter_app. Qed.

Lemma sounding_app snd a b : sounding snd (a ++ b) = sounding (sounding snd a) b.
Proof. apply fold_left_app. Qed.

Lemma synth_step_silent snd e : is_synth e = false -> synth_step snd e = snd.
Proof. destruct e; simpl; congruence. Qed.

Lemma sounding_synth snd tr : sounding snd (synth tr) = sounding snd tr.
Proof.
  revert snd. induction tr as [|e tr IH]; intros snd; [reflexivity|].
  simpl. destruct (is_synth e) eqn:E; simpl.
  - apply IH.
  - rewrite (synth_step_silent _ _ E). apply IH.
Qed.

Lemma peak_synth snd tr : peak snd (synth tr) = peak snd tr.
Proof.
  revert snd. induction tr as [|e tr IH]; intros snd; [reflexivity|].
  simpl. destruct (is_synth e) eqn:E; simpl.
  - now rewrite IH.
  - rewrite (synth_step_silent _ _ E), IH.
    destruct tr; simpl; lia.
Qed.

Lemma peak_start snd tr : (length snd <= peak snd tr)%nat.
Proof. destruct tr; simpl; lia. Qed.

Lemma peak_app snd a b :
  peak snd (a ++ b) = Nat.max (peak snd a) (peak (sounding snd a) b).
Proof.
  revert snd. induction a as [|e a IH]; intros snd; simpl.
  - pose proof (peak_start snd b). lia.
  - rewrite IH. unfold sounding. simpl. lia.
Qed.

(** [peak] bounds the notes sounding after every prefix of the trace. *)
Lemma peak_prefix snd pre post :
  (length (sounding snd pre) <= peak snd (pre ++ post))%nat.
Proof.
  rewrite peak_app. pose proof (peak_start (sounding snd pre) post). lia.
Qed.

(** ** Variant 1 *)

Module Facts1.
Import Variant1 Spec1.
Section WithVendor.
Context `{Vendor}.

(** *** Layout *)

Lemma TINE_PITCH_eq : TINE_PITCH = TINE_WIDTH + TINE_GAP.
Proof. reflexivity. Qed.

Lemma getTineX_eq pos :
  0 <= pos <= 16 -> getTineX pos = TINE_START_X + pos * TINE_PITCH.
Proof.
  intros Hp. unfold getTineX, u16.
  change TINE_START_X with 8. change TINE_PITCH with 18.
  apply Z.mod_small. lia.
Qed.

Lemma getTineHeight_eq pos :
  0 <= pos <= 16 ->
  getTineHeight pos = TINE_CENTER_HEIGHT - TINE_EDGE_STEP * Z.abs (pos - 8).
Proof.
  intros Hp. unfold getTineHeight, u16, TINE_CENTER_HEIGHT, TINE_EDGE_STEP.
  destruct (Z.ltb_spec (pos - 8) 0); rewrite Z.mod_small; lia.
Qed.

(** *** Hit test *)

Lemma scan_range n pos x y :
  0 <= pos -> pos + Z.of_nat n <= 17 ->
  -1 <= getKeyAtPosition_scan n pos x y <= 16.
Proof.
  revert pos. induction n as [|n IH]; intros pos H0 Hn; simpl; [lia|].
  destruct (_ && _); [lia|].
  unfold u8. rewrite Z.mod_small by lia. apply IH; lia.
Qed.

Lemma getKeyAtPosition_range x y : -1 <= getKeyAtPosition x y <= 16.
Proof.
  unfold getKeyAtPosition. destruct (y <? BRIDGE_Y); [lia|].
  apply scan_range; simpl; lia.
Qed.

(** A position returned by the scan holds the point in its rectangle. *)
Lemma scan_inside n pos x y p :
  0 <= pos -> pos + Z.of_nat n <= 17 ->
  getKeyAtPosition_scan n pos x y = p -> 0 <= p ->
  getTineX p <= x < getTineX p + TINE_WIDTH /\
  BRIDGE_Y <= y <= BRIDGE_Y + getTineHeight p.
Proof.
  revert pos. induction n as [|n IH]; intros pos H0 Hn E Hp; simpl in E; [lia|].
  destruct (_ && _) eqn:C.
  - subst p. repeat (apply andb_prop in C; destruct C as [C ?]).
    assert (u16 (BRIDGE_Y + getTineHeight pos) = BRIDGE_Y + getTineHeight pos) as W.
    { rewrite getTineHeight_eq by lia. unfold u16, BRIDGE_Y, TINE_CENTER_HEIGHT, TINE_EDGE_STEP.
      apply Z.mod_small. lia. }
    rewrite W in *. lia.
  - unfold u8 in E. rewrite Z.mod_small in E by lia. apply (IH (pos + 1)); auto; lia.
Qed.

Lemma getKeyAtPosition_inside x y p :
  getKeyAtPosition x y = p -> 0 <= p ->
  getTineX p <= x < getTineX p + TINE_WIDTH /\
  BRIDGE_Y <= y <= BRIDGE_Y + getTineHeight p.
Proof.
  unfold getKeyAtPosition. destruct (y <? BRIDGE_Y); [lia|].
  apply scan_inside; simpl; lia.
Qed.

Lemma getKeyAtPosition_tine pos :
  0 <= pos <= 16 -> getKeyAtPosition (getTineX pos + 1) (BRIDGE_Y + 1) = pos.
Proof. intros Hp. each_position pos 0 17; reflexivity. Qed.

Lemma getKeyAtPosition_above x y : y < BRIDGE_Y -> getKeyAtPosition x y = -1.
Proof.
  intros Hy. unfold getKeyAtPosition.
  destruct (Z.ltb_spec y BRIDGE_Y); [reflexivity | lia].
Qed.

(** Points off the tine area hit nothing. *)
Lemma getKeyAtPosition_off x y :
  x < 8 \/ 314 <= x \/ y < 22 \/ 172 < y -> getKeyAtPosition x y = -1.
Proof.
  intros Hoff. pose proof (getKeyAtPosition_range x y) as R.
  destruct (Z.eq_dec (getKeyAtPosition x y) (-1)) as [|N]; [assumption|exfalso].
  destruct (getKeyAtPosition_inside x y _ eq_refl) as [Hx Hy]; [lia|].
  rewrite getTineX_eq in Hx by lia. rewrite getTineHeight_eq in Hy by lia.
  change TINE_START_X with 8 in Hx. change TINE_PITCH with 18 in Hx.
  unfold TINE_WIDTH in Hx. unfold BRIDGE_Y, TINE_CENTER_HEIGHT, TINE_EDGE_STEP in Hy.
  lia.
Qed.

(** *** The pressed flags *)

Lemma one_hot_lookup t i :
  0 <= i <= 16 -> one_hot t !! Z.to_nat i = Some (i =? t).
Proof.
  intros Hi. unfold one_hot.
  rewrite list_lookup_fmap, lookup_seqZ_lt by lia. simpl.
  do 2 f_equal. lia.
Qed.

Lemma one_hot_set p :
  0 <= p <= 16 -> <[Z.to_nat p := true]> (one_hot (-1)) = one_hot p.
Proof. intros Hp. each_position p 0 17; reflexivity. Qed.

Lemma one_hot_clear t :
  0 <= t <= 16 -> <[Z.to_nat t := false]> (one_hot t) = one_hot (-1).
Proof. intros Ht. each_position t 0 17; reflexivity. Qed.

Lemma one_hot_count t :
  (length (List.filter (fun b : bool => b) (one_hot t)) <= 1)%nat.
Proof.
  destruct (Z_le_gt_dec 0 t) as [H0|H0]; [destruct (Z_le_gt_dec t 16) as [H1|H1]|].
  - each_position t 0 17; vm_compute; lia.
  - replace (one_hot t) with (one_hot (-1)); [vm_compute; lia|].
    unfold one_hot. apply list_fmap_ext. intros i x Hx.
    apply lookup_seqZ in Hx. lia.
  - replace (one_hot t) with (one_hot (-1)); [vm_compute; lia|].
    unfold one_hot. apply list_fmap_ext. intros i x Hx.
    apply lookup_seqZ in Hx. lia.
Qed.

Lemma basePitch_range pos : 0 <= pos <= 16 -> 60 <= basePitch pos <= 88.
Proof. intros Hp. each_position pos 0 17; vm_compute; split; discriminate. Qed.
End WithVendor.
End Facts1.

Module Run1.
Import Variant1 Spec1 Facts1.
Section WithVendor.
Context `{Vendor}.

(** *** The blocks of [loop], run on a well-formed state *)

Lemma drawTine_run pos pressed s :
  0 <= pos <= 16 ->
  drawTine pos pressed s = Some (tt, s, drawTine_trace pos pressed).
Proof. intros Hp. each_position pos 0 17; reflexivity. Qed.

Lemma drawTine_silent pos pressed :
  0 <= pos <= 16 -> synth (drawTine_trace pos pressed) = [].
Proof. intros Hp. each_position pos 0 17; reflexivity. Qed.

Lemma drawModeIndicator_run offset s :
  drawModeIndicator offset s =
    Some (tt, mkState (key_pressed s) (active_note_pitch s) (active_tine s) offset,
          mode_trace offset (prev_offset s)).
Proof.
  destruct s as [kp q t po]. unfold mode_trace, trace_of, drawModeIndicator, bind, get.
  simpl. destruct (Z.eqb_spec offset po) as [->|N]; [reflexivity|].
  destruct (offset =? -1); [reflexivity|]. destruct (offset =? 1); reflexivity.
Qed.

Lemma mode_trace_silent offset prev : synth (mode_trace offset prev) = [].
Proof.
  unfold mode_trace, trace_of, drawModeIndicator, bind, get. simpl.
  destruct (offset =? prev); [reflexivity|].
  destruct (offset =? -1); [reflexivity|]. destruct (offset =? 1); reflexivity.
Qed.

Lemma loop_semitone_offset_cases inp :
  loop_semitone_offset inp = -1 \/ loop_semitone_offset inp = 0 \/
  loop_semitone_offset inp = 1.
Proof.
  unfold loop_semitone_offset.
  destruct (BtnA_isPressed inp), (BtnC_isPressed inp); vm_compute; auto.
Qed.

Lemma unpress_trace_synth s :
  -1 <= active_tine s <= 16 ->
  synth (unpress_trace s) =
    if 0 <=? active_tine s then [setNoteOff 0 (active_note_pitch s) 0] else [].
Proof.
  intros Ht. unfold unpress_trace. destruct (Z.leb_spec 0 (active_tine s)); [|reflexivity].
  unfold synth. simpl. f_equal. apply drawTine_silent. lia.
Qed.

(** The release block on a touch-free tick. *)
Lemma loop_release_run inp s :
  wf s -> Touch_points inp = 0 ->
  loop_release inp s = Some (tt, idle_state (prev_offset s), unpress_trace s).
Proof.
  intros [Ht Hk] Hp. destruct s as [kp q t po]. simpl in *. subst kp.
  unfold loop_release. rewrite Hp. simpl.
  assert (t = -1 \/ 0 <= t <= 16) as [->|Ht'] by lia; [reflexivity|].
  each_position t 0 17; reflexivity.
Qed.

Lemma loop_release_skip inp s :
  Touch_points inp <> 0 -> loop_release inp s = Some (tt, s, []).
Proof.
  intros Hp. unfold loop_release. destruct (Z.eqb_spec (Touch_points inp) 0); [lia|].
  reflexivity.
Qed.

(** The touch block when it starts a note. *)
Lemma loop_touch_fire inp off s :
  wf s -> fires s inp = true -> off = -1 \/ off = 0 \/ off = 1 ->
  loop_touch inp off s =
    Some (tt, pressed_state (hit inp) off (prev_offset s), press_trace s (hit inp) off).
Proof.
  intros [Ht Hk] F Hoff. destruct s as [kp q t po]. simpl in *. subst kp.
  unfold fires in F. simpl in F.
  repeat (apply andb_prop in F; destruct F as [F ?]).
  unfold loop_touch. rewrite F. simpl.
  destruct (0 <? Touch_points inp); [|discriminate]. simpl.
  fold (hit inp). pose proof (getKeyAtPosition_range (u16 (fst (Touch_point0 inp)))
    (u16 (snd (Touch_point0 inp)))) as R. fold (hit inp) in R.
  generalize dependent (hit inp). intros pos Hpos Hne R.
  apply Z.leb_le in Hpos. apply negb_true_iff, Z.eqb_neq in Hne.
  assert (0 <= pos <= 16) as Hpos' by lia. clear Hpos R.
  revert Hne.
  assert (t = -1 \/ 0 <= t <= 16) as [->|Ht'] by lia.
  - each_position pos 0 17; intros _; destruct Hoff as [->|[->| ->]]; reflexivity.
  - each_position t 0 17; each_position pos 0 17; intros Hne;
      try (exfalso; apply Hne; reflexivity);
      destruct Hoff as [->|[->| ->]]; reflexivity.
Qed.
End WithVendor.
End Run1.

Module Tick1.
Import Variant1 Spec1 Facts1 Run1.
Section WithVendor.
Context `{Vendor}.

Lemma hit_range inp : -1 <= hit inp <= 16.
Proof. apply getKeyAtPosition_range. Qed.

(** The touch block when it does not start a note. *)
Lemma loop_touch_skip inp off s :
  wf s -> fires s inp = false -> loop_touch inp off s = Some (tt, s, []).
Proof.
  intros [Ht Hk] F. unfold loop_touch, fires in *.
  destruct (Touch_changed inp); [|reflexivity].
  destruct (0 <? Touch_points inp); [|reflexivity].
  simpl in *. fold (hit inp). pose proof (hit_range inp) as R.
  destruct (Z.leb_spec 0 (hit inp)) as [Hp|Hp]; [|reflexivity].
  simpl in F. apply negb_false_iff, Z.eqb_eq in F.
  unfold get_key_pressed, elem, bind, get. simpl.
  destruct (Z.leb_spec 0 (hit inp)); [|lia].
  rewrite Hk, one_hot_lookup by lia. rewrite F, Z.eqb_refl. reflexivity.
Qed.

Lemma fires_touching s inp : fires s inp = true -> Touch_points inp <> 0.
Proof.
  unfold fires. intros F. repeat (apply andb_prop in F; destruct F as [F ?]).
  destruct (Z.ltb_spec 0 (Touch_points inp)); [lia|discriminate].
Qed.

(** One call of [loop] on a well-formed state. *)
Lemma loop_run_v1 inp s :
  wf s -> loop inp s = Some (tt, tick_state s inp, tick_trace s inp).
Proof.
  intros W. unfold loop, tick_state, tick_trace.
  set (off := loop_semitone_offset inp).
  assert (wf (with_prev s off)) as W1 by exact W.
  assert (fires (with_prev s off) inp = fires s inp) as EF by reflexivity.
  rewrite (bind_run _ _ _ _ _ _ (drawModeIndicator_run off s)).
  fold (with_prev s off).
  destruct (fires s inp) eqn:F.
  - rewrite (bind_run _ _ _ _ _ _
               (loop_touch_fire inp off _ W1 F (loop_semitone_offset_cases inp))).
    rewrite (bind_silent _ _ _ _
               (loop_release_skip inp _ (fires_touching s inp F))).
    reflexivity.
  - rewrite (bind_silent _ _ _ _ (loop_touch_skip inp off _ W1 EF)).
    destruct (Z.eqb_spec (Touch_points inp) 0) as [E|E].
    + rewrite (bind_run _ _ _ _ _ _ (loop_release_run inp _ W1 E)). reflexivity.
    + rewrite (bind_silent _ _ _ _ (loop_release_skip inp _ E)). reflexivity.
Qed.

Lemma tick_state_wf_v1 s inp : wf s -> wf (tick_state s inp).
Proof.
  intros W. unfold tick_state. pose proof (hit_range inp).
  destruct (fires s inp); [split; simpl; [lia|reflexivity]|].
  destruct (_ =? 0); [split; simpl; [lia|reflexivity]|exact W].
Qed.

Lemma setup_run_v1 : exists tr, setup init = Some (tt, init, tr).
Proof. eexists. reflexivity. Qed.

Lemma reachable_wf_v1 s : reachable s -> wf s.
Proof.
  induction 1 as [s tr E | s inp s' tr R IH E].
  - destruct setup_run_v1 as [tr' E']. rewrite E' in E. injection E as <- _.
    split; [simpl; lia | reflexivity].
  - rewrite (loop_run_v1 inp s IH) in E. injection E as <- _.
    apply tick_state_wf_v1, IH.
Qed.

(** The synth commands of one call of [loop]. *)
Lemma tick_synth_v1 s inp :
  wf s ->
  synth (tick_trace s inp) =
    (if fires s inp || (Touch_points inp =? 0)
     then (if 0 <=? active_tine s then [setNoteOff 0 (active_note_pitch s) 0] else [])
     else []) ++
    (if fires s inp
     then [setNoteOn 0 (basePitch (hit inp) + loop_semitone_offset inp) 100]
     else []).
Proof.
  intros [Ht Hk]. unfold tick_trace. rewrite !synth_app, mode_trace_silent. simpl.
  rewrite app_nil_r. pose proof (hit_range inp) as R.
  destruct (fires s inp) eqn:F; simpl.
  - unfold press_trace. rewrite synth_app, unpress_trace_synth by lia.
    f_equal. unfold synth. simpl. f_equal. apply drawTine_silent.
    unfold fires in F. repeat (apply andb_prop in F; destruct F as [F ?]).
    destruct (Z.leb_spec 0 (hit inp)); [lia|discriminate].
  - destruct (_ =? 0); [|reflexivity].
    rewrite unpress_trace_synth by lia. now rewrite app_nil_r.
Qed.
End WithVendor.
End Tick1.

(** ** Variant 2 *)

Module Facts2.
Import Variant2 Spec2.
Section WithVendor.
Context `{Vendor}.

(** *** Layout and hit test *)

Lemma barWidth_eq : barWidth = 18.
Proof. reflexivity. Qed.

Lemma centerIndex_eq : centerIndex = 8.
Proof. reflexivity. Qed.

Lemma getBarHeight_bounds index :
  0 <= index <= 16 -> 152 <= getBarHeight index <= 200.
Proof.
  intros Hi. unfold getBarHeight, maxHeight, stepHeight. rewrite centerIndex_eq. lia.
Qed.

(** A bar returned by the hit test holds the point. *)
Lemma barAt_inside x y b :
  barAt x y = Some b ->
  0 <= b <= 16 /\ b = x `quot` barWidth /\ barY <= y <= barY + getBarHeight b.
Proof.
  unfold barAt. destruct (_ && _) eqn:C1; [|discriminate].
  destruct ((barY <=? y) && _) eqn:C2; [|discriminate].
  intros [= <-]. apply andb_prop in C1 as [? ?]. apply andb_prop in C2 as [? ?].
  unfold barCount in *. lia.
Qed.

Lemma barAt_bar pos :
  0 <= pos <= 16 -> barAt (pos * barWidth + 1) (barY + 1) = Some pos.
Proof. intros Hp. each_position pos 0 17; reflexivity. Qed.

Lemma barAt_above x y : y < barY -> barAt x y = None.
Proof.
  intros Hy. unfold barAt. destruct (_ && _); [|reflexivity].
  destruct (Z.leb_spec barY y); [lia|reflexivity].
Qed.

(** Points off the bar area hit nothing. *)
Lemma barAt_off x y :
  x <= -18 \/ 306 <= x \/ y < 20 \/ 220 < y -> barAt x y = None.
Proof.
  intros Hoff. destruct (barAt x y) as [b|] eqn:E; [exfalso|reflexivity].
  apply barAt_inside in E as (Hb & Hq & Hy).
  pose proof (getBarHeight_bounds b Hb). unfold barY in Hy. rewrite barWidth_eq in Hq.
  assert (-18 < x < 306); [|lia].
  pose proof (Z.quot_rem' x 18) as Hx.
  destruct (Z_le_gt_dec 0 x) as [Hpos|Hneg].
  - pose proof (Z.rem_bound_pos x 18 Hpos ltac:(lia)) as Hr.
    rewrite <- Hq in Hx. clear Hq. generalize dependent (x `rem` 18). intros; lia.
  - pose proof (Z.rem_bound_pos_neg x 18 ltac:(lia) ltac:(lia)) as Hr.
    rewrite <- Hq in Hx. clear Hq. generalize dependent (x `rem` 18). intros; lia.
Qed.

(** *** The blocks of [loop], run on a well-formed state *)

Lemma drawSingleBar_run index color s :
  0 <= index <= 16 ->
  drawSingleBar index color s = Some (tt, s, drawSingleBar_trace index color).
Proof. intros Hi. each_position index 0 17; reflexivity. Qed.

Lemma drawSingleBar_silent index color :
  0 <= index <= 16 -> synth (drawSingleBar_trace index color) = [].
Proof. intros Hi. each_position index 0 17; reflexivity. Qed.

Lemma unselect_trace_silent s : wf s -> synth (unselect_trace s) = [].
Proof.
  intros [Hs _]. unfold unselect_trace.
  destruct (Z.eqb_spec (selectedBar s) (-1)); [reflexivity|].
  apply drawSingleBar_silent. lia.
Qed.

(** Clearing the selection, as the three places of [loop] that do it. *)
Lemma unselect_run s :
  wf s ->
  when (negb (selectedBar s =? -1))
       (drawSingleBar (selectedBar s) barColor ;;; set_selectedBar (-1)) s
  = Some (tt, mkState (-1) (lastPressedBar s) (wasPressed s), unselect_trace s).
Proof.
  intros [Hs _]. destruct s as [sel lp wp]. unfold unselect_trace. simpl in *.
  destruct (Z.eqb_spec sel (-1)) as [->|N]; [reflexivity|]. simpl.
  rewrite (bind_run _ _ _ _ _ _ (drawSingleBar_run sel barColor _ ltac:(lia))).
  simpl. now rewrite app_nil_r.
Qed.

Lemma loop_pressed_run inp s :
  wf s ->
  loop_pressed inp s =
    Some (tt,
          match hit inp with
          | Some b => mkState b b (wasPressed s)
          | None => mkState (-1) (lastPressedBar s) (wasPressed s)
          end,
          match hit inp with
          | Some b =>
              if selectedBar s =? b then []
              else unselect_trace s ++ drawSingleBar_trace b highlightColor ++ pluck b
          | None => unselect_trace s
          end).
Proof.
  intros W. pose proof W as [Hs Hl]. unfold loop_pressed.
  destruct (hit inp) as [b|] eqn:E; unfold hit, barAt in E.
  - destruct (_ && _) eqn:C1; [|discriminate].
    destruct ((barY <=? _) && _) eqn:C2; [|discriminate].
    injection E as E. rewrite E. clear C2.
    assert (0 <= b <= 16) as Hb.
    { rewrite E in C1. apply andb_prop in C1 as [? ?]. unfold barCount in *. lia. }
    clear C1 E. destruct s as [sel lp wp]. unfold unselect_trace. simpl in *.
    unfold bind at 1. simpl.
    destruct (Z.eqb_spec sel b) as [->|N]; [reflexivity|].
    assert (sel = -1 \/ 0 <= sel <= 16) as [->|Hs'] by lia.
    + each_position b 0 17; reflexivity.
    + revert N. each_position sel 0 17; each_position b 0 17; intros N;
        try (exfalso; apply N; reflexivity); reflexivity.
  - destruct (_ && _); [destruct ((barY <=? _) && _); [discriminate|]|];
      unfold bind at 1; simpl; rewrite (unselect_run s W); reflexivity.
Qed.

Lemma loop_released_run s :
  wf s ->
  loop_released s =
    Some (tt,
          if fires_on_release s then mkState (-1) (-1) (wasPressed s) else s,
          if fires_on_release s
          then unselect_trace s ++ [setNoteOn 0 (note (lastPressedBar s)) 127]
          else []).
Proof.
  intros [Hs Hl]. destruct s as [sel lp wp]. unfold loop_released, fires_on_release.
  unfold bind at 1. simpl in *. destruct wp; [|reflexivity]. simpl.
  destruct (Z.eqb_spec lp (-1)) as [->|N]; [reflexivity|]. simpl.
  assert (wf (mkState sel lp true)) as W' by (split; simpl; lia).
  rewrite (bind_run _ _ _ _ _ _ (unselect_run _ W')).
  simpl. unfold unselect_trace. simpl. generalize (if sel =? -1 then []
    else drawSingleBar_trace sel barColor). intros tr.
  assert (0 <= lp <= 16) as Hl' by lia.
  each_position lp 0 17; reflexivity.
Qed.

Lemma loop_run_v2 inp s :
  wf s -> loop inp s = Some (tt, tick_state s inp, tick_trace s inp).
Proof.
  intros W. unfold loop, tick_state, tick_trace.
  destruct (Touch_ispressed inp).
  - rewrite (bind_run _ _ _ _ _ _ (loop_pressed_run inp s W)).
    destruct (hit inp); simpl; now rewrite app_nil_r.
  - rewrite (bind_run _ _ _ _ _ _ (loop_released_run s W)).
    destruct (fires_on_release s); simpl; [now rewrite app_nil_r|].
    now destruct s.
Qed.

Lemma tick_state_wf_v2 s inp : wf s -> wf (tick_state s inp).
Proof.
  intros [Hs Hl]. unfold tick_state. destruct (Touch_ispressed inp).
  - destruct (hit inp) as [b|] eqn:E; [|split; simpl; lia].
    apply barAt_inside in E as [Hb _]. split; simpl; lia.
  - destruct (fires_on_release s); split; simpl; lia.
Qed.

Lemma setup_run_v2 : exists tr, setup init = Some (tt, init, tr).
Proof. eexists. reflexivity. Qed.

Lemma reachable_wf_v2 s : reachable s -> wf s.
Proof.
  induction 1 as [s tr E | s inp s' tr R IH E].
  - destruct setup_run_v2 as [tr' E']. rewrite E' in E. injection E as <- _.
    split; simpl; lia.
  - rewrite (loop_run_v2 inp s IH) in E. injection E as <- _.
    apply tick_state_wf_v2, IH.
Qed.

(** The synth commands of one call of [loop]. *)
Lemma tick_synth_v2 s inp :
  wf s ->
  synth (tick_trace s inp) =
    if Touch_ispressed inp then
      match hit inp with
      | Some b => if selectedBar s =? b then [] else pluck_synth b
      | None => []
      end
    else if fires_on_release s then [setNoteOn 0 (note (lastPressedBar s)) 127]
    else [].
Proof.
  intros W. unfold tick_trace. destruct (Touch_ispressed inp).
  - destruct (hit inp) as [b|] eqn:E; [|now apply unselect_trace_silent].
    destruct (_ =? b); [reflexivity|].
    apply barAt_inside in E as [Hb _].
    rewrite !synth_app, unselect_trace_silent, drawSingleBar_silent by auto.
    reflexivity.
  - destruct (fires_on_release s); [|reflexivity].
    rewrite synth_app, unselect_trace_silent by auto. reflexivity.
Qed.
End WithVendor.
End Facts2.

(** ** Array accesses fail outside the bounds *)

Lemma elem_in_bounds {S A} (a : list A) (i : Z) (s s' : S) v tr :
  elem a i s = Some (v, s', tr) -> 0 <= i < Z.of_nat (length a).
Proof.
  unfold elem. destruct (Z.leb_spec 0 i) as [H0|]; [|discriminate].
  destruct (a !! Z.to_nat i) eqn:E; [|discriminate]. intros _.
  apply lookup_lt_Some in E. lia.
Qed.

Lemma elem_out_of_bounds {S A} (a : list A) (i : Z) (s : S) :
  i < 0 \/ Z.of_nat (length a) <= i -> elem a i s = None.
Proof.
  intros Hi. destruct (elem a i s) as [[[v s'] tr]|] eqn:E; [|reflexivity].
  apply elem_in_bounds in E. lia.
Qed.

Lemma drawTine_out_of_bounds `{Vendor} pos pressed s :
  pos < 0 \/ 17 <= pos -> Variant1.drawTine pos pressed s = None.
Proof.
  intros Hp. unfold Variant1.drawTine, bind, lcd, emit.
  now rewrite (elem_out_of_bounds Variant1.tine_notes pos s Hp).
Qed.

Lemma drawSingleBar_out_of_bounds `{Vendor} index color s :
  index < 0 \/ 17 <= index -> Variant2.drawSingleBar index color s = None.
Proof.
  intros Hi. unfold Variant2.drawSingleBar, bind, lcd, emit.
  now rewrite (elem_out_of_bounds Variant2.noteNames index s Hi).
Qed.

(** ** Note-on and note-off counts *)

Lemma note_on_synth tr : List.filter is_note_on (synth tr) = List.filter is_note_on tr.
Proof.
  induction tr as [|e tr IH]; [reflexivity|].
  destruct e; simpl; rewrite ?IH; reflexivity.
Qed.

Lemma note_off_synth tr : List.filter is_note_off (synth tr) = List.filter is_note_off tr.
Proof.
  induction tr as [|e tr IH]; [reflexivity|].
  destruct e; simpl; rewrite ?IH; reflexivity.
Qed.

(** ** Variant 1: runs of [loop] *)

Module Runs1.
Import Variant1 Spec1 Facts1 Run1 Tick1.
Section WithVendor.
Context `{Vendor}.

Lemma fires_spec s inp :
  fires s inp = true <->
  Touch_changed inp = true /\ 0 < Touch_points inp /\ 0 <= hit inp /\
  hit inp <> active_tine s.
Proof.
  unfold fires. rewrite !andb_true_iff, negb_true_iff, Z.ltb_lt, Z.leb_le, Z.eqb_neq.
  tauto.
Qed.

Lemma lands_fires s inp P :
  lands inp P -> active_tine s <> P -> fires s inp = true.
Proof. intros (C & N & E & P0) A. apply fires_spec. rewrite E. auto. Qed.

Lemma stays_quiet P off prev inp :
  stays P inp -> fires (pressed_state P off prev) inp = false.
Proof.
  intros [N E]. apply not_true_iff_false. rewrite fires_spec. simpl. tauto.
Qed.

(** The sounding note follows the state, one tick at a time. *)
Lemma tick_sounding s inp :
  wf s ->
  sounding (sounding_of s) (tick_trace s inp) = sounding_of (tick_state s inp) /\
  (peak (sounding_of s) (tick_trace s inp) <= 1)%nat.
Proof.
  intros W. rewrite <- sounding_synth, <- peak_synth, (tick_synth_v1 s inp W).
  unfold tick_state, sounding_of. pose proof W as [Ht _].
  destruct (fires s inp) eqn:F; simpl.
  - apply fires_spec in F as (_ & _ & Hp & _).
    destruct (Z.leb_spec 0 (hit inp)); [|lia].
    destruct (0 <=? active_tine s); simpl; rewrite ?Z.eqb_refl; simpl; auto.
  - destruct (Touch_points inp =? 0); simpl.
    + destruct (0 <=? active_tine s); simpl; rewrite ?Z.eqb_refl; simpl; auto.
    + destruct (0 <=? active_tine s); simpl; auto.
Qed.

Lemma ticks_run inputs :
  forall s0, wf s0 ->
  exists s tr,
    ticks loop inputs s0 = Some (tt, s, tr) /\ wf s /\
    (reachable s0 -> reachable s) /\
    sounding (sounding_of s0) tr = sounding_of s /\
    (peak (sounding_of s0) tr <= 1)%nat.
Proof.
  induction inputs as [|inp rest IH]; intros s0 W.
  - exists s0, []. split; [reflexivity|]. split; [exact W|]. split; [auto|].
    split; [reflexivity|]. unfold sounding_of. simpl.
    destruct (0 <=? active_tine s0); simpl; lia.
  - destruct (IH _ (tick_state_wf_v1 s0 inp W)) as (s & tr & E & Ws & R & Snd & Pk).
    destruct (tick_sounding s0 inp W) as [Snd0 Pk0].
    exists s, (tick_trace s0 inp ++ tr). simpl.
    rewrite (bind_ok _ _ _ _ _ _ _ _ _ (loop_run_v1 inp s0 W) E).
    split; [reflexivity|]. split; [exact Ws|]. split; [|split].
    + intros R0. apply R. eapply reach_loop; [exact R0 | apply loop_run_v1, W].
    + rewrite sounding_app, Snd0. exact Snd.
    + rewrite peak_app, Snd0. lia.
Qed.

Lemma wf_init : wf init.
Proof. split; [simpl; lia | reflexivity]. Qed.

Lemma boot_run inputs :
  exists s tr,
    boot inputs init = Some (tt, s, tr) /\ reachable s /\
    sounding [] tr = sounding_of s /\ (peak [] tr <= 1)%nat.
Proof.
  destruct (ticks_run inputs init wf_init) as (s & tr & E & Ws & R & Snd & Pk).
  exists s, (trace_of setup init ++ tr). unfold boot.
  assert (setup init = Some (tt, init, trace_of setup init)) as E0 by reflexivity.
  rewrite (bind_ok _ _ _ _ _ _ _ _ _ E0 E).
  assert (synth (trace_of setup init) = []) as Q by reflexivity.
  split; [reflexivity|]. split; [|split].
  - apply R. eapply reach_setup. exact E0.
  - rewrite <- sounding_synth, synth_app, Q. simpl. rewrite sounding_synth. exact Snd.
  - rewrite <- peak_synth, synth_app, Q. simpl. rewrite peak_synth. exact Pk.
Qed.

(** Holding the touch on the active tine: any number of silent ticks. *)
Lemma hold_run P off holds :
  0 <= P <= 16 -> Forall (stays P) holds ->
  forall prev, exists prev' tr,
    ticks loop holds (pressed_state P off prev) =
      Some (tt, pressed_state P off prev', tr) /\ synth tr = [].
Proof.
  intros HP. induction 1 as [|inp rest St _ IH]; intros prev.
  - exists prev, []. split; reflexivity.
  - assert (wf (pressed_state P off prev)) as W by (split; [simpl; lia | reflexivity]).
    pose proof (stays_quiet P off prev inp St) as F.
    assert (tick_state (pressed_state P off prev) inp
            = pressed_state P off (loop_semitone_offset inp)) as ES.
    { unfold tick_state. rewrite F. destruct St as [N _].
      destruct (Z.eqb_spec (Touch_points inp) 0); [lia | reflexivity]. }
    assert (synth (tick_trace (pressed_state P off prev) inp) = []) as ET.
    { rewrite (tick_synth_v1 _ inp W), F. destruct St as [N _].
      destruct (Z.eqb_spec (Touch_points inp) 0); [lia | reflexivity]. }
    destruct (IH (loop_semitone_offset inp)) as (prev' & tr & E & Q).
    exists prev', (tick_trace (pressed_state P off prev) inp ++ tr). simpl.
    pose proof (loop_run_v1 inp _ W) as E1. rewrite ES in E1.
    rewrite (bind_ok _ _ _ _ _ _ _ _ _ E1 E).
    split; [reflexivity|]. now rewrite synth_app, ET, Q.
Qed.
End WithVendor.
End Runs1.

Lemma ticks_app_ok {S I} (step : I -> M S unit) l1 l2 s s1 t1 s2 t2 :
  ticks step l1 s = Some (tt, s1, t1) ->
  ticks step l2 s1 = Some (tt, s2, t2) ->
  ticks step (l1 ++ l2) s = Some (tt, s2, t1 ++ t2).
Proof. intros E1 E2. rewrite (ticks_app _ _ _ _ _ _ E1). now rewrite E2. Qed.

(** ** Variant 2: runs of [loop] *)

Module Runs2.
Import Variant2 Spec2 Facts2.
Section WithVendor.
Context `{Vendor}.

Lemma on_bar_range B inp : on_bar B inp -> 0 <= B <= 16.
Proof. intros [_ E]. now apply barAt_inside in E as [? _]. Qed.

(** One tick with the touch on bar [B]. *)
Lemma on_bar_tick B inp s :
  wf s -> on_bar B inp ->
  loop inp s = Some (tt, mkState B B true, tick_trace s inp) /\
  synth (tick_trace s inp) = if selectedBar s =? B then [] else pluck_synth B.
Proof.
  intros W [P E]. split.
  - rewrite (loop_run_v2 inp s W). unfold tick_state. now rewrite P, E.
  - rewrite (tick_synth_v2 s inp W). now rewrite P, E.
Qed.

(** Resting on bar [B] after the pluck: silent. *)
Lemma rest_on_bar B l :
  Forall (on_bar B) l ->
  exists tr, ticks loop l (mkState B B true) = Some (tt, mkState B B true, tr) /\
             synth tr = [].
Proof.
  induction 1 as [|inp rest O _ (tr & E & Q)].
  - exists []. split; reflexivity.
  - pose proof (on_bar_range B inp O) as HB.
    assert (wf (mkState B B true)) as W by (split; simpl; lia).
    destruct (on_bar_tick B inp _ W O) as [E1 Q1]. simpl in Q1.
    rewrite Z.eqb_refl in Q1.
    eexists. simpl. rewrite (bind_ok _ _ _ _ _ _ _ _ _ E1 E).
    split; [reflexivity|]. now rewrite synth_app, Q1, Q.
Qed.

(** Sliding onto bar [B] and resting there: exactly one pluck. *)
Lemma slide_onto B l s :
  wf s -> selectedBar s <> B -> l <> [] -> Forall (on_bar B) l ->
  exists tr, ticks loop l s = Some (tt, mkState B B true, tr) /\
             synth tr = pluck_synth B.
Proof.
  intros W N NE F. destruct l as [|inp rest]; [congruence|].
  apply Forall_cons in F as [O F].
  destruct (on_bar_tick B inp s W O) as [E1 Q1].
  destruct (Z.eqb_spec (selectedBar s) B); [congruence|].
  destruct (rest_on_bar B rest F) as (tr & E & Q).
  eexists. simpl. rewrite (bind_ok _ _ _ _ _ _ _ _ _ E1 E).
  split; [reflexivity|]. now rewrite synth_app, Q1, Q, app_nil_r.
Qed.

(** With no touch and nothing pending, [loop] does nothing. *)
Lemma idle_run l :
  Forall no_touch l ->
  exists tr, ticks loop l init = Some (tt, init, tr) /\ synth tr = [].
Proof.
  induction 1 as [|inp rest O _ (tr & E & Q)].
  - exists []. split; reflexivity.
  - assert (wf init) as W by (split; simpl; lia).
    pose proof (loop_run_v2 inp init W) as E1. pose proof (tick_synth_v2 init inp W) as Q1.
    unfold tick_state in E1. unfold no_touch in O. rewrite O in E1, Q1. simpl in E1, Q1.
    eexists. simpl. rewrite (bind_ok _ _ _ _ _ _ _ _ _ E1 E).
    split; [reflexivity|]. now rewrite synth_app, Q1, Q.
Qed.

(** Lifting the finger from bar [B]: one note-on, then silence. *)
Lemma lift_from B l :
  0 <= B <= 16 -> l <> [] -> Forall no_touch l ->
  exists tr, ticks loop l (mkState B B true) = Some (tt, init, tr) /\
             synth tr = [setNoteOn 0 (note B) 127].
Proof.
  intros HB NE F. destruct l as [|inp rest]; [congruence|].
  apply Forall_cons in F as [O F].
  assert (wf (mkState B B true)) as W by (split; simpl; lia).
  pose proof (loop_run_v2 inp _ W) as E1. pose proof (tick_synth_v2 _ inp W) as Q1.
  unfold tick_state, fires_on_release in E1, Q1. unfold no_touch in O.
  rewrite O in E1, Q1. simpl in E1, Q1.
  destruct (Z.eqb_spec B (-1)); [lia|]. simpl in E1, Q1.
  destruct (idle_run rest F) as (tr & E & Q).
  eexists. simpl. rewrite (bind_ok _ _ _ _ _ _ _ _ _ E1 E).
  split; [reflexivity|]. now rewrite synth_app, Q1, Q.
Qed.
End WithVendor.
End Runs2.

(** [drawTine] starts by filling the tine's rectangle, in the pressed or in
    the resting colour. *)
Lemma drawTine_trace_head `{Vendor} (pos : Z) (pressed : bool) :
  0 <= pos <= 16 ->
  exists rest,
    Spec1.drawTine_trace pos pressed =
      Lcd (fillRect (Variant1.getTineX pos) Variant1.BRIDGE_Y Variant1.TINE_WIDTH
                    (Variant1.getTineHeight pos)
                    (if pressed then Variant1.COL_PRESSED else Variant1.COL_TINE))
      :: rest.
Proof. intros Hp. each_position pos 0 17; destruct pressed; eexists; reflexivity. Qed.

(** [drawSingleBar] starts by filling the bar's rectangle in the colour it
    is given. *)
Lemma drawSingleBar_trace_head `{Vendor} (index color : Z) :
  0 <= index <= 16 ->
  exists rest,
    Spec2.drawSingleBar_trace index color =
      Lcd (fillRect (index * Variant2.barWidth) Variant2.barY (Variant2.barWidth - 1)
                    (Variant2.getBarHeight index) color)
      :: rest.
Proof. intros Hi. each_position index 0 17; eexists; reflexivity. Qed.

(** * The claims *)

(** C1. Variant 1: a press of tine [P] that is then held emits exactly one
    note-on, at the tick the touch lands, and no synth command while the
    touch stays on [P]; the lift emits exactly one note-off, for the pitch
    that was turned on: the base pitch of [P] plus the offset of the press
    tick, whatever the buttons are at the lift. *)
Theorem C1_press_hold_release `{Vendor}
    (s : Variant1.State) (press release : Variant1.Input)
    (holds : list Variant1.Input) (P : Z) :
  Spec1.reachable s ->
  Spec1.lands press P ->
  Variant1.active_tine s <> P ->
  Forall (Spec1.stays P) holds ->
  Variant1.Touch_points release = 0 ->
  exists s1 t1 s2 t2 s3 t3,
    Variant1.loop press s = Some (tt, s1, t1) /\
    ticks Variant1.loop holds s1 = Some (tt, s2, t2) /\
    Variant1.loop release s2 = Some (tt, s3, t3) /\
    List.filter is_note_on t1 =
      [setNoteOn 0 (Spec1.basePitch P + Variant1.loop_semitone_offset press) 100] /\
    synth t2 = [] /\
    synth t3 =
      [setNoteOff 0 (Spec1.basePitch P + Variant1.loop_semitone_offset press) 0].
Proof.
  intros R L A St Rel. pose proof (Tick1.reachable_wf_v1 s R) as W.
  pose proof (Runs1.lands_fires s press P L A) as F.
  destruct L as (_ & _ & EP & P0). pose proof (Tick1.hit_range press) as HR.
  set (off := Variant1.loop_semitone_offset press).
  assert (Spec1.tick_state s press = Spec1.pressed_state P off off) as E1.
  { unfold Spec1.tick_state. now rewrite F, EP. }
  destruct (Runs1.hold_run P off holds ltac:(lia) St off) as (prev' & t2 & E2 & Q2).
  assert (Spec1.wf (Spec1.pressed_state P off prev')) as W2
    by (split; [simpl; lia | reflexivity]).
  exists (Spec1.pressed_state P off off), (Spec1.tick_trace s press),
         (Spec1.pressed_state P off prev'), t2,
         (Spec1.tick_state (Spec1.pressed_state P off prev') release),
         (Spec1.tick_trace (Spec1.pressed_state P off prev') release).
  split; [rewrite <- E1; apply Tick1.loop_run_v1, W|].
  split; [exact E2|]. split; [apply Tick1.loop_run_v1, W2|].
  split; [|split; [exact Q2|]].
  - rewrite <- note_on_synth, (Tick1.tick_synth_v1 s press W), F, EP. simpl.
    destruct (0 <=? Variant1.active_tine s); reflexivity.
  - rewrite (Tick1.tick_synth_v1 _ release W2).
    assert (Spec1.fires (Spec1.pressed_state P off prev') release = false) as F3.
    { apply not_true_iff_false. rewrite Runs1.fires_spec. lia. }
    rewrite F3, Rel. simpl. destruct (Z.leb_spec 0 P); [reflexivity | lia].
Qed.

Lemma C1_press_hold_release_witness :
  exists s1 t1 s2 t2 s3 t3,
    Variant1.loop (H := midi) (Variant1.mkInput false true true 1 (63, 23))
      Variant1.init = Some (tt, s1, t1) /\
    ticks (Variant1.loop (H := midi))
      [Variant1.mkInput true false true 1 (64, 30);
       Variant1.mkInput false false false 1 (64, 30)] s1 = Some (tt, s2, t2) /\
    Variant1.loop (H := midi) (Variant1.mkInput true false true 0 (-1, -1)) s2
      = Some (tt, s3, t3) /\
    List.filter is_note_on t1 = [setNoteOn 0 (76 + 1) 100] /\
    synth t2 = [] /\
    synth t3 = [setNoteOff 0 (76 + 1) 0].
Proof.
  apply (C1_press_hold_release (H := midi) Variant1.init
           (Variant1.mkInput false true true 1 (63, 23))
           (Variant1.mkInput true false true 0 (-1, -1))
           [Variant1.mkInput true false true 1 (64, 30);
            Variant1.mkInput false false false 1 (64, 30)] 3).
  - eapply Spec1.reach_setup. vm_compute. reflexivity.
  - vm_compute. repeat split; congruence.
  - vm_compute. congruence.
  - repeat constructor.
  - reflexivity.
Defined.

(** C3. Variant 1: from power-up, after every call of [loop] at most one
    pressed flag is set.  A press of a tine [P] that is not the active one
    makes [P] the active tine, with only its flag set, and the calls of that
    tick are, in this order: the mode indicator; when another tine [Q] was
    active, the note-off for the old pitch and the redraw of [Q] as
    released, which starts by filling its rectangle in the resting colour;
    the note-on for the new pitch; the redraw of [P] as pressed, which
    starts by filling its rectangle in the pressed colour; the closing
    [delay(10)].  At no moment of the whole run is more than one note
    sounding. *)
Theorem C3_single_active_tine `{Vendor}
    (inputs : list Variant1.Input) (inp : Variant1.Input) :
  exists s tr0 s' tr,
    Spec1.boot inputs Variant1.init = Some (tt, s, tr0) /\
    Variant1.loop inp s = Some (tt, s', tr) /\
    (Spec1.pressed_count s' <= 1)%nat /\
    (forall P,
       Spec1.lands inp P ->
       Variant1.active_tine s <> P ->
       Variant1.active_tine s' = P /\
       Variant1.key_pressed s' = Spec1.one_hot P /\
       tr = Spec1.mode_trace (Variant1.loop_semitone_offset inp) (Variant1.prev_offset s)
            ++ (if 0 <=? Variant1.active_tine s
                then setNoteOff 0 (Variant1.active_note_pitch s) 0
                     :: Spec1.drawTine_trace (Variant1.active_tine s) false
                else [])
            ++ (setNoteOn 0 (Spec1.basePitch P + Variant1.loop_semitone_offset inp) 100
                :: Spec1.drawTine_trace P true)
            ++ [delay 10] /\
       (0 <= Variant1.active_tine s ->
        exists rest,
          Spec1.drawTine_trace (Variant1.active_tine s) false =
            Lcd (fillRect (Variant1.getTineX (Variant1.active_tine s))
                          Variant1.BRIDGE_Y Variant1.TINE_WIDTH
                          (Variant1.getTineHeight (Variant1.active_tine s))
                          Variant1.COL_TINE) :: rest) /\
       (exists rest,
          Spec1.drawTine_trace P true =
            Lcd (fillRect (Variant1.getTineX P) Variant1.BRIDGE_Y Variant1.TINE_WIDTH
                          (Variant1.getTineHeight P) Variant1.COL_PRESSED) :: rest)) /\
    (forall pre post,
       tr0 ++ tr = pre ++ post -> (length (sounding [] pre) <= 1)%nat).
Proof.
  destruct (Runs1.boot_run inputs) as (s & tr0 & E0 & R & Snd & Pk).
  pose proof (Tick1.reachable_wf_v1 s R) as W.
  destruct (Runs1.tick_sounding s inp W) as [Snd1 Pk1].
  exists s, tr0, (Spec1.tick_state s inp), (Spec1.tick_trace s inp).
  split; [exact E0|]. split; [apply Tick1.loop_run_v1, W|]. split; [|split].
  - destruct (Tick1.tick_state_wf_v1 s inp W) as [_ K].
    unfold Spec1.pressed_count. rewrite K. apply Facts1.one_hot_count.
  - intros P L N. pose proof (Runs1.lands_fires s inp P L N) as F.
    destruct L as (_ & _ & EP & P0). pose proof (Tick1.hit_range inp) as HR.
    pose proof W as [Ht _].
    unfold Spec1.tick_state, Spec1.tick_trace, Spec1.press_trace, Spec1.unpress_trace.
    rewrite F, EP. split; [reflexivity|]. split; [reflexivity|].
    split; [now rewrite <- !app_assoc|]. split.
    + intros A. apply (drawTine_trace_head _ false). lia.
    + apply (drawTine_trace_head P true). lia.
  - intros pre post E.
    pose proof (peak_prefix [] pre post) as B. rewrite <- E, peak_app, Snd in B.
    lia.
Qed.

Lemma C3_single_active_tine_witness :
  exists s' tr,
    Variant1.loop (H := midi) (Variant1.mkInput false false true 1 (100, 30))
      (Spec1.pressed_state 3 1 1) = Some (tt, s', tr) /\
    (Spec1.pressed_count s' <= 1)%nat /\
    Variant1.active_tine s' = 5 /\
    Variant1.key_pressed s' = Spec1.one_hot 5 /\
    tr = Spec1.mode_trace 0 1
         ++ (setNoteOff 0 77 0 :: Spec1.drawTine_trace (H := midi) 3 false)
         ++ (setNoteOn 0 69 100 :: Spec1.drawTine_trace (H := midi) 5 true)
         ++ [delay 10].
Proof.
  destruct (C3_single_active_tine (H := midi)
              [Variant1.mkInput false true true 1 (63, 23)]
              (Variant1.mkInput false false true 1 (100, 30)))
    as (s & tr0 & s' & tr & E0 & E & Pc & Ord & _).
  vm_compute in E0. injection E0 as Es _. subst s.
  destruct (Ord 5) as (A & K & T & _).
  - vm_compute. repeat split; congruence.
  - vm_compute. congruence.
  - exists s', tr. split; [exact E|]. split; [exact Pc|].
    split; [exact A|]. split; [exact K | exact T].
Defined.

(** C6. Variant 1: a press of tine [P] emits one note-on, whose pitch is the
    base pitch of [P] plus one when the sharp button (C) is held, the base
    pitch itself when neither button is held, and the base pitch minus one
    when the flat button (A) alone is held. *)
Theorem C6_semitone_shift `{Vendor}
    (s : Variant1.State) (inp : Variant1.Input) (P : Z) :
  Spec1.reachable s ->
  Spec1.lands inp P ->
  Variant1.active_tine s <> P ->
  exists s' tr pitch,
    Variant1.loop inp s = Some (tt, s', tr) /\
    List.filter is_note_on tr = [setNoteOn 0 pitch 100] /\
    Variant1.active_note_pitch s' = pitch /\
    (Variant1.BtnC_isPressed inp = true -> pitch = Spec1.basePitch P + 1) /\
    (Variant1.BtnA_isPressed inp = false -> Variant1.BtnC_isPressed inp = false ->
     pitch = Spec1.basePitch P) /\
    (Variant1.BtnA_isPressed inp = true -> Variant1.BtnC_isPressed inp = false ->
     pitch = Spec1.basePitch P - 1).
Proof.
  intros R L A. pose proof (Tick1.reachable_wf_v1 s R) as W.
  pose proof (Runs1.lands_fires s inp P L A) as F. destruct L as (_ & _ & EP & _).
  exists (Spec1.tick_state s inp), (Spec1.tick_trace s inp),
         (Spec1.basePitch P + Variant1.loop_semitone_offset inp).
  split; [apply Tick1.loop_run_v1, W|]. split; [|split].
  - rewrite <- note_on_synth, (Tick1.tick_synth_v1 s inp W), F, EP. simpl.
    destruct (0 <=? Variant1.active_tine s); reflexivity.
  - unfold Spec1.tick_state. now rewrite F, EP.
  - unfold Variant1.loop_semitone_offset.
    destruct (Variant1.BtnA_isPressed inp), (Variant1.BtnC_isPressed inp);
      repeat split; intros; try discriminate; change (s8 1) with 1;
      change (s8 (-1)) with (-1); lia.
Qed.

Lemma C6_semitone_shift_witness :
  exists s' tr pitch,
    Variant1.loop (H := midi) (Variant1.mkInput false true true 1 (63, 23))
      Variant1.init = Some (tt, s', tr) /\
    List.filter is_note_on tr = [setNoteOn 0 pitch 100] /\
    Variant1.active_note_pitch s' = pitch /\
    (true = true -> pitch = 76 + 1) /\
    (false = false -> true = false -> pitch = 76) /\
    (false = true -> true = false -> pitch = 76 - 1).
Proof.
  apply (C6_semitone_shift (H := midi) Variant1.init
           (Variant1.mkInput false true true 1 (63, 23)) 3).
  - eapply Spec1.reach_setup. vm_compute. reflexivity.
  - vm_compute. repeat split; congruence.
  - vm_compute. congruence.
Defined.

(** C10. Variant 1: when the flat (A) and the sharp (C) button are both held
    during the tick tine [P] is pressed, the sharp assignment wins: the
    offset is +1 and the note-on carries the base pitch of [P] plus one. *)
Theorem C10_both_buttons_sharp `{Vendor}
    (s : Variant1.State) (inp : Variant1.Input) (P : Z) :
  Spec1.reachable s ->
  Spec1.lands inp P ->
  Variant1.active_tine s <> P ->
  Variant1.BtnA_isPressed inp = true ->
  Variant1.BtnC_isPressed inp = true ->
  Variant1.loop_semitone_offset inp = 1 /\
  exists s' tr,
    Variant1.loop inp s = Some (tt, s', tr) /\
    List.filter is_note_on tr = [setNoteOn 0 (Spec1.basePitch P + 1) 100] /\
    Variant1.active_note_pitch s' = Spec1.basePitch P + 1.
Proof.
  intros R L A BA BC. pose proof (Tick1.reachable_wf_v1 s R) as W.
  pose proof (Runs1.lands_fires s inp P L A) as F. destruct L as (_ & _ & EP & _).
  assert (Variant1.loop_semitone_offset inp = 1) as EO.
  { unfold Variant1.loop_semitone_offset. now rewrite BA, BC. }
  split; [exact EO|].
  exists (Spec1.tick_state s inp), (Spec1.tick_trace s inp).
  split; [apply Tick1.loop_run_v1, W|]. split.
  - rewrite <- note_on_synth, (Tick1.tick_synth_v1 s inp W), F, EP, EO. simpl.
    destruct (0 <=? Variant1.active_tine s); reflexivity.
  - unfold Spec1.tick_state. now rewrite F, EP, EO.
Qed.

Lemma C10_both_buttons_sharp_witness :
  Variant1.loop_semitone_offset (Variant1.mkInput true true true 1 (63, 23)) = 1 /\
  exists s' tr,
    Variant1.loop (H := midi) (Variant1.mkInput true true true 1 (63, 23))
      Variant1.init = Some (tt, s', tr) /\
    List.filter is_note_on tr = [setNoteOn 0 (76 + 1) 100] /\
    Variant1.active_note_pitch s' = 76 + 1.
Proof.
  apply (C10_both_buttons_sharp (H := midi) Variant1.init
           (Variant1.mkInput true true true 1 (63, 23)) 3).
  - eapply Spec1.reach_setup. vm_compute. reflexivity.
  - vm_compute. repeat split; congruence.
  - vm_compute. congruence.
  - reflexivity.
  - reflexivity.
Defined.

(** C2. Variant 2: from power-up, a touch that rests on bar 3, then on bar 5,
    then on bar 7, and is lifted while on 7, makes the synthesizer receive
    exactly: note-on and note-off for the pitch of bar 3, the same for bar 5
    and for bar 7, and then, at the lift, a note-on for the pitch of bar 7;
    however long the screen stays untouched afterwards, no note-off
    follows. *)
Theorem C2_slide_3_5_7 `{Vendor} (on3 on5 on7 lifted : list Variant2.Input) :
  on3 <> [] -> Forall (Spec2.on_bar 3) on3 ->
  on5 <> [] -> Forall (Spec2.on_bar 5) on5 ->
  on7 <> [] -> Forall (Spec2.on_bar 7) on7 ->
  lifted <> [] -> Forall Spec2.no_touch lifted ->
  exists s tr,
    Spec2.boot (on3 ++ on5 ++ on7 ++ lifted) Variant2.init = Some (tt, s, tr) /\
    synth tr =
      [setNoteOn 0 (u8 NOTE_E4) 127; setNoteOff 0 (u8 NOTE_E4) 127;
       setNoteOn 0 (u8 NOTE_A3) 127; setNoteOff 0 (u8 NOTE_A3) 127;
       setNoteOn 0 (u8 NOTE_D3) 127; setNoteOff 0 (u8 NOTE_D3) 127;
       setNoteOn 0 (u8 NOTE_D3) 127].
Proof.
  intros N3 F3 N5 F5 N7 F7 NL FL.
  assert (Spec2.wf Variant2.init) as W0 by (split; simpl; lia).
  destruct (Runs2.slide_onto 3 on3 Variant2.init W0 ltac:(simpl; lia) N3 F3)
    as (t3 & E3 & Q3).
  destruct (Runs2.slide_onto 5 on5 (Variant2.mkState 3 3 true)
              ltac:(split; simpl; lia) ltac:(simpl; lia) N5 F5) as (t5 & E5 & Q5).
  destruct (Runs2.slide_onto 7 on7 (Variant2.mkState 5 5 true)
              ltac:(split; simpl; lia) ltac:(simpl; lia) N7 F7) as (t7 & E7 & Q7).
  destruct (Runs2.lift_from 7 lifted ltac:(lia) NL FL) as (tl & EL & QL).
  pose proof (ticks_app_ok _ _ _ _ _ _ _ _ E7 EL) as E78.
  pose proof (ticks_app_ok _ _ _ _ _ _ _ _ E5 E78) as E58.
  pose proof (ticks_app_ok _ _ _ _ _ _ _ _ E3 E58) as E38.
  assert (Variant2.setup Variant2.init
          = Some (tt, Variant2.init, trace_of Variant2.setup Variant2.init)) as E0
    by reflexivity.
  assert (synth (trace_of Variant2.setup Variant2.init) = []) as Q0 by reflexivity.
  eexists _, _. unfold Spec2.boot.
  rewrite (bind_ok _ _ _ _ _ _ _ _ _ E0 E38). split; [reflexivity|].
  rewrite !synth_app, Q0, Q3, Q5, Q7, QL. reflexivity.
Qed.

Lemma C2_slide_3_5_7_witness :
  exists s tr,
    Spec2.boot (H := midi)
      ([Variant2.mkInput true (60, 100); Variant2.mkInput true (61, 101)]
       ++ [Variant2.mkInput true (95, 100)]
       ++ [Variant2.mkInput true (130, 100)]
       ++ [Variant2.mkInput false (-1, -1); Variant2.mkInput false (-1, -1)])
      Variant2.init = Some (tt, s, tr) /\
    synth tr =
      [setNoteOn 0 64 127; setNoteOff 0 64 127;
       setNoteOn 0 57 127; setNoteOff 0 57 127;
       setNoteOn 0 50 127; setNoteOff 0 50 127;
       setNoteOn 0 50 127].
Proof.
  apply (C2_slide_3_5_7 (H := midi)
           [Variant2.mkInput true (60, 100); Variant2.mkInput true (61, 101)]
           [Variant2.mkInput true (95, 100)]
           [Variant2.mkInput true (130, 100)]
           [Variant2.mkInput false (-1, -1); Variant2.mkInput false (-1, -1)]);
    try discriminate; repeat constructor.
Defined.



(** C4. Layout: for every position 0..16, variant 1 gives the tine the
    height [TINE_CENTER_HEIGHT - TINE_EDGE_STEP * |pos - 8|] and the x
    position [TINE_START_X + pos * TINE_PITCH], with
    [TINE_PITCH = TINE_WIDTH + TINE_GAP]; variant 2 gives the bar the height
    [maxHeight - stepHeight * |pos - centerIndex|] with centre index 8, and
    draws it from x = [0 + pos * barWidth], one pixel narrower than the
    pitch [barWidth].  The height and x functions are functions of the
    position alone: they take and return no state and leave no trace. *)
Theorem C4_layout `{Vendor} (pos : Z) :
  0 <= pos <= 16 ->
  Variant1.getTineHeight pos
    = Variant1.TINE_CENTER_HEIGHT - Variant1.TINE_EDGE_STEP * Z.abs (pos - 8) /\
  Variant1.getTineX pos = Variant1.TINE_START_X + pos * Variant1.TINE_PITCH /\
  Variant1.TINE_PITCH = Variant1.TINE_WIDTH + Variant1.TINE_GAP /\
  Variant2.getBarHeight pos
    = Variant2.maxHeight - Variant2.stepHeight * Z.abs (pos - Variant2.centerIndex) /\
  Variant2.centerIndex = 8 /\
  forall color s, exists rest,
    Variant2.drawSingleBar pos color s =
      Some (tt, s,
            Lcd (fillRect (0 + pos * Variant2.barWidth) Variant2.barY
                          (Variant2.barWidth - 1) (Variant2.getBarHeight pos) color)
            :: rest).
Proof.
  intros Hp.
  split; [apply Facts1.getTineHeight_eq, Hp|].
  split; [apply Facts1.getTineX_eq, Hp|].
  split; [apply Facts1.TINE_PITCH_eq|].
  split; [unfold Variant2.getBarHeight; lia|].
  split; [reflexivity|].
  intros color s. rewrite (Facts2.drawSingleBar_run pos color s Hp).
  each_position pos 0 17; eexists; reflexivity.
Qed.

Lemma C4_layout_witness :
  Variant1.getTineHeight 0 = 150 - 8 * 8 /\
  Variant1.getTineX 0 = 8 + 0 * 18 /\
  Variant1.TINE_PITCH = 16 + 2 /\
  Variant2.getBarHeight 0 = 200 - 6 * 8 /\
  Variant2.centerIndex = 8 /\
  forall color s, exists rest,
    Variant2.drawSingleBar (H := midi) 0 color s =
      Some (tt, s, Lcd (fillRect 0 20 17 152 color) :: rest).
Proof. apply (C4_layout (H := midi) 0). lia. Defined.

(** C5. Hit test: for every position 0..16 the point one pixel inside the
    tine's left edge and one pixel below the bridge line resolves to that
    position, and every point one pixel above the bridge line resolves to
    none; in variant 1 through [getKeyAtPosition], in variant 2 through the
    test [loop] performs, which then selects that bar, or clears the
    selection. *)
Theorem C5_hit_test `{Vendor} (pos x : Z) :
  0 <= pos <= 16 ->
  Variant1.getKeyAtPosition (Variant1.getTineX pos + 1) (Variant1.BRIDGE_Y + 1) = pos /\
  Variant1.getKeyAtPosition x (Variant1.BRIDGE_Y - 1) = -1 /\
  Variant2.barAt (pos * Variant2.barWidth + 1) (Variant2.barY + 1) = Some pos /\
  Variant2.barAt x (Variant2.barY - 1) = None /\
  forall s, Spec2.reachable s ->
    (exists tr,
       Variant2.loop (Variant2.mkInput true (pos * Variant2.barWidth + 1, Variant2.barY + 1)) s
       = Some (tt, Variant2.mkState pos pos true, tr)) /\
    (exists tr,
       Variant2.loop (Variant2.mkInput true (x, Variant2.barY - 1)) s
       = Some (tt, Variant2.mkState (-1) (Variant2.lastPressedBar s) true, tr)).
Proof.
  intros Hp.
  pose proof (Facts2.barAt_bar pos Hp) as B1.
  assert (Variant2.barAt x (Variant2.barY - 1) = None) as B2
    by (apply Facts2.barAt_above; lia).
  split; [apply Facts1.getKeyAtPosition_tine, Hp|].
  split; [apply Facts1.getKeyAtPosition_above; lia|].
  split; [exact B1|]. split; [exact B2|].
  intros s R. pose proof (Facts2.reachable_wf_v2 s R) as W. split.
  - eexists. rewrite (Facts2.loop_run_v2 _ s W). unfold Spec2.tick_state, Spec2.hit.
    simpl. rewrite B1. reflexivity.
  - eexists. rewrite (Facts2.loop_run_v2 _ s W). unfold Spec2.tick_state, Spec2.hit.
    simpl. rewrite B2. reflexivity.
Qed.

Lemma C5_hit_test_witness :
  Variant1.getKeyAtPosition (Variant1.getTineX 16 + 1) (Variant1.BRIDGE_Y + 1) = 16 /\
  Variant1.getKeyAtPosition 400 (Variant1.BRIDGE_Y - 1) = -1 /\
  Variant2.barAt (16 * Variant2.barWidth + 1) (Variant2.barY + 1) = Some 16 /\
  Variant2.barAt 400 (Variant2.barY - 1) = None /\
  forall s, Spec2.reachable (H := midi) s ->
    (exists tr,
       Variant2.loop (H := midi)
         (Variant2.mkInput true (16 * Variant2.barWidth + 1, Variant2.barY + 1)) s
       = Some (tt, Variant2.mkState 16 16 true, tr)) /\
    (exists tr,
       Variant2.loop (H := midi) (Variant2.mkInput true (400, Variant2.barY - 1)) s
       = Some (tt, Variant2.mkState (-1) (Variant2.lastPressedBar s) true, tr)).
Proof. apply (C5_hit_test (H := midi) 16 400). lia. Defined.

(** C7. Release idempotence: in both variants, of two consecutive calls of
    [loop] with no touch reported, the second sends no synth command at all,
    and the two together send at most one note-off. *)
Theorem C7_release_idempotent `{Vendor}
    (s1 : Variant1.State) (a1 b1 : Variant1.Input)
    (s2 : Variant2.State) (a2 b2 : Variant2.Input) :
  Spec1.reachable s1 ->
  Variant1.Touch_points a1 = 0 -> Variant1.Touch_points b1 = 0 ->
  Spec2.reachable s2 ->
  Spec2.no_touch a2 -> Spec2.no_touch b2 ->
  (exists s' t s'' t',
     Variant1.loop a1 s1 = Some (tt, s', t) /\
     Variant1.loop b1 s' = Some (tt, s'', t') /\
     synth t' = [] /\
     (length (List.filter is_note_off (t ++ t')) <= 1)%nat) /\
  (exists s' t s'' t',
     Variant2.loop a2 s2 = Some (tt, s', t) /\
     Variant2.loop b2 s' = Some (tt, s'', t') /\
     synth t' = [] /\
     (length (List.filter is_note_off (t ++ t')) <= 1)%nat).
Proof.
  intros R1 A1 B1 R2 A2 B2. split.
  - pose proof (Tick1.reachable_wf_v1 s1 R1) as W.
    pose proof (Tick1.tick_state_wf_v1 s1 a1 W) as W'.
    exists (Spec1.tick_state s1 a1), (Spec1.tick_trace s1 a1),
           (Spec1.tick_state (Spec1.tick_state s1 a1) b1),
           (Spec1.tick_trace (Spec1.tick_state s1 a1) b1).
    split; [apply Tick1.loop_run_v1, W|]. split; [apply Tick1.loop_run_v1, W'|].
    assert (forall s i, Variant1.Touch_points i = 0 -> Spec1.fires s i = false) as NF.
    { intros s i E. apply not_true_iff_false. rewrite Runs1.fires_spec. lia. }
    assert (synth (Spec1.tick_trace (Spec1.tick_state s1 a1) b1) = []) as Q'.
    { rewrite (Tick1.tick_synth_v1 _ b1 W'), (NF _ _ B1), B1. simpl.
      unfold Spec1.tick_state. rewrite (NF _ _ A1), A1. reflexivity. }
    split; [exact Q'|].
    rewrite <- note_off_synth, synth_app, Q', app_nil_r.
    rewrite (Tick1.tick_synth_v1 _ a1 W), (NF _ _ A1), A1. simpl.
    destruct (0 <=? Variant1.active_tine s1); simpl; lia.
  - pose proof (Facts2.reachable_wf_v2 s2 R2) as W.
    pose proof (Facts2.tick_state_wf_v2 s2 a2 W) as W'.
    exists (Spec2.tick_state s2 a2), (Spec2.tick_trace s2 a2),
           (Spec2.tick_state (Spec2.tick_state s2 a2) b2),
           (Spec2.tick_trace (Spec2.tick_state s2 a2) b2).
    split; [apply Facts2.loop_run_v2, W|]. split; [apply Facts2.loop_run_v2, W'|].
    unfold Spec2.no_touch in A2, B2.
    assert (synth (Spec2.tick_trace (Spec2.tick_state s2 a2) b2) = []) as Q'.
    { rewrite (Facts2.tick_synth_v2 _ b2 W'), B2.
      unfold Spec2.tick_state. rewrite A2.
      destruct (Spec2.fires_on_release s2); reflexivity. }
    split; [exact Q'|].
    rewrite <- note_off_synth, synth_app, Q', app_nil_r.
    rewrite (Facts2.tick_synth_v2 _ a2 W), A2.
    destruct (Spec2.fires_on_release s2); simpl; lia.
Qed.

Lemma C7_release_idempotent_witness :
  (exists s' t s'' t',
     Variant1.loop (H := midi) (Variant1.mkInput false false true 0 (-1, -1))
       (Spec1.pressed_state 3 1 1) = Some (tt, s', t) /\
     Variant1.loop (H := midi) (Variant1.mkInput false false false 0 (-1, -1)) s'
       = Some (tt, s'', t') /\
     synth t' = [] /\
     (length (List.filter is_note_off (t ++ t')) <= 1)%nat) /\
  (exists s' t s'' t',
     Variant2.loop (H := midi) (Variant2.mkInput false (-1, -1))
       (Variant2.mkState 3 3 true) = Some (tt, s', t) /\
     Variant2.loop (H := midi) (Variant2.mkInput false (-1, -1)) s'
       = Some (tt, s'', t') /\
     synth t' = [] /\
     (length (List.filter is_note_off (t ++ t')) <= 1)%nat).
Proof.
  apply (C7_release_idempotent (H := midi)).
  - eapply Spec1.reach_loop
      with (inp := Variant1.mkInput false true true 1 (63, 23)).
    + eapply Spec1.reach_setup. vm_compute. reflexivity.
    + vm_compute. reflexivity.
  - reflexivity.
  - reflexivity.
  - eapply Spec2.reach_loop with (inp := Variant2.mkInput true (60, 100)).
    + eapply Spec2.reach_setup. vm_compute. reflexivity.
    + vm_compute. reflexivity.
  - reflexivity.
  - reflexivity.
Defined.

(** C9, as the sketches have it: in both variants [loop] runs to completion
    from every reachable state, so that every array access it makes is in
    bounds, and it leaves the stored indices at -1 or in 0..16; a touch that
    hits no tine sends no synth command; in variant 1 it leaves the pressed
    flags, the active tine and the active pitch as they were, in variant 2
    it redraws the selected bar, if any, in its resting colour (starting
    with the fill of its rectangle) and draws nothing else, clears
    [selectedBar], records the press in [wasPressed]
    and keeps [lastPressedBar]; coordinates off the tine area hit no
    tine. *)
Theorem C9_guarded_access `{Vendor}
    (s1 : Variant1.State) (inp1 : Variant1.Input)
    (s2 : Variant2.State) (inp2 : Variant2.Input) (x y : Z) :
  Spec1.reachable s1 ->
  Spec2.reachable s2 ->
  (exists s' tr,
     Variant1.loop inp1 s1 = Some (tt, s', tr) /\
     -1 <= Variant1.active_tine s' <= 16 /\
     (0 < Variant1.Touch_points inp1 -> Spec1.hit inp1 = -1 ->
      synth tr = [] /\
      Variant1.key_pressed s' = Variant1.key_pressed s1 /\
      Variant1.active_tine s' = Variant1.active_tine s1 /\
      Variant1.active_note_pitch s' = Variant1.active_note_pitch s1)) /\
  (exists s' tr,
     Variant2.loop inp2 s2 = Some (tt, s', tr) /\
     -1 <= Variant2.selectedBar s' <= 16 /\
     -1 <= Variant2.lastPressedBar s' <= 16 /\
     (Spec2.off_bars inp2 ->
      synth tr = [] /\
      Variant2.selectedBar s' = -1 /\
      Variant2.lastPressedBar s' = Variant2.lastPressedBar s2 /\
      Variant2.wasPressed s' = true /\
      tr = (if Variant2.selectedBar s2 =? -1 then []
            else Spec2.drawSingleBar_trace (Variant2.selectedBar s2)
                   Variant2.barColor) /\
      (Variant2.selectedBar s2 <> -1 ->
       exists rest,
         tr = Lcd (fillRect (Variant2.selectedBar s2 * Variant2.barWidth)
                            Variant2.barY (Variant2.barWidth - 1)
                            (Variant2.getBarHeight (Variant2.selectedBar s2))
                            Variant2.barColor) :: rest))) /\
  (x < 8 \/ 314 <= x \/ y < 22 \/ 172 < y -> Variant1.getKeyAtPosition x y = -1) /\
  (x <= -18 \/ 306 <= x \/ y < 20 \/ 220 < y -> Variant2.barAt x y = None).
Proof.
  intros R1 R2. split; [|split; [|split]].
  - pose proof (Tick1.reachable_wf_v1 s1 R1) as W.
    exists (Spec1.tick_state s1 inp1), (Spec1.tick_trace s1 inp1).
    split; [apply Tick1.loop_run_v1, W|].
    split; [apply (Tick1.tick_state_wf_v1 s1 inp1 W)|].
    intros N E.
    assert (Spec1.fires s1 inp1 = false) as F.
    { apply not_true_iff_false. rewrite Runs1.fires_spec. lia. }
    rewrite (Tick1.tick_synth_v1 s1 inp1 W). unfold Spec1.tick_state. rewrite F.
    destruct (Z.eqb_spec (Variant1.Touch_points inp1) 0); [lia|].
    repeat split.
  - pose proof (Facts2.reachable_wf_v2 s2 R2) as W.
    exists (Spec2.tick_state s2 inp2), (Spec2.tick_trace s2 inp2).
    split; [apply Facts2.loop_run_v2, W|].
    destruct (Facts2.tick_state_wf_v2 s2 inp2 W) as [Hs Hl].
    split; [exact Hs|]. split; [exact Hl|].
    intros [P E]. rewrite (Facts2.tick_synth_v2 s2 inp2 W).
    unfold Spec2.tick_state, Spec2.tick_trace, Spec2.unselect_trace.
    rewrite P, E. do 5 (split; [reflexivity|]).
    intros N. destruct (Z.eqb_spec (Variant2.selectedBar s2) (-1)); [congruence|].
    apply drawSingleBar_trace_head. destruct W as [Hs' _]. lia.
  - apply Facts1.getKeyAtPosition_off.
  - apply Facts2.barAt_off.
Qed.

Lemma C9_guarded_access_witness :
  (exists s' tr,
     Variant1.loop (H := midi) (Variant1.mkInput false false true 1 (2, 100))
       (Spec1.pressed_state 3 1 1) = Some (tt, s', tr) /\
     -1 <= Variant1.active_tine s' <= 16 /\
     (0 < 1 -> Spec1.hit (Variant1.mkInput false false true 1 (2, 100)) = -1 ->
      synth tr = [] /\
      Variant1.key_pressed s' = Spec1.one_hot 3 /\
      Variant1.active_tine s' = 3 /\
      Variant1.active_note_pitch s' = Spec1.basePitch 3 + 1)) /\
  (exists s' tr,
     Variant2.loop (H := midi) (Variant2.mkInput true (310, 100))
       (Variant2.mkState 3 3 true) = Some (tt, s', tr) /\
     -1 <= Variant2.selectedBar s' <= 16 /\
     -1 <= Variant2.lastPressedBar s' <= 16 /\
     (Spec2.off_bars (Variant2.mkInput true (310, 100)) ->
      synth tr = [] /\
      Variant2.selectedBar s' = -1 /\
      Variant2.lastPressedBar s' = 3 /\
      Variant2.wasPressed s' = true /\
      tr = Spec2.drawSingleBar_trace (H := midi) 3 (Variant2.barColor (H := midi)) /\
      (3 <> -1 ->
       exists rest, tr = Lcd (fillRect 54 20 17 170 65535) :: rest))) /\
  (319 < 8 \/ 314 <= 319 \/ 100 < 22 \/ 172 < 100 ->
   Variant1.getKeyAtPosition 319 100 = -1) /\
  (319 <= -18 \/ 306 <= 319 \/ 100 < 20 \/ 220 < 100 ->
   Variant2.barAt 319 100 = None).
Proof.
  apply (C9_guarded_access (H := midi)).
  - eapply Spec1.reach_loop
      with (inp := Variant1.mkInput false true true 1 (63, 23)).
    + eapply Spec1.reach_setup. vm_compute. reflexivity.
    + vm_compute. reflexivity.
  - eapply Spec2.reach_loop with (inp := Variant2.mkInput true (60, 100)).
    + eapply Spec2.reach_setup. vm_compute. reflexivity.
    + vm_compute. reflexivity.
Defined.

(** C9 as stated fails in variant 2: a touch that slides off the bars (here
    from bar 3 to x = 310, right of the last bar, where the computed index 17
    fails the range guard) hits nothing and yet changes the state, since it
    clears [selectedBar]. *)
Lemma C9_off_bar_touch_changes_state :
  Spec2.reachable (H := midi) (Variant2.mkState 3 3 true) /\
  Spec2.hit (Variant2.mkInput true (310, 100)) = None /\
  exists tr,
    Variant2.loop (H := midi) (Variant2.mkInput true (310, 100))
      (Variant2.mkState 3 3 true)
    = Some (tt, Variant2.mkState (-1) 3 true, tr) /\
    Variant2.mkState (-1) 3 true <> Variant2.mkState 3 3 true.
Proof.
  split; [|split].
  - eapply Spec2.reach_loop with (inp := Variant2.mkInput true (60, 100)).
    + eapply Spec2.reach_setup. vm_compute. reflexivity.
    + vm_compute. reflexivity.
  - reflexivity.
  - eexists. split; [vm_compute; reflexivity | discriminate].
Qed.

(** * Further properties *)

(** ** Geometry *)

(** The scan of [getKeyAtPosition] finds the tine whose rectangle holds the
    point: the columns before it end left of the point. *)
Lemma scan_finds n pos x y p :
  0 <= pos <= p -> p < pos + Z.of_nat n <= 17 ->
  Variant1.getTineX p <= x < Variant1.getTineX p + Variant1.TINE_WIDTH ->
  Variant1.BRIDGE_Y <= y <= Variant1.BRIDGE_Y + Variant1.getTineHeight p ->
  Variant1.getKeyAtPosition_scan n pos x y = p.
Proof.
  revert pos. induction n as [|n IH]; intros pos Hpos Hn Hx Hy; [lia|].
  cbn [Variant1.getKeyAtPosition_scan].
  assert (u16 (Variant1.BRIDGE_Y + Variant1.getTineHeight pos)
          = Variant1.BRIDGE_Y + Variant1.getTineHeight pos) as W.
  { rewrite Facts1.getTineHeight_eq by lia.
    unfold u16, Variant1.BRIDGE_Y, Variant1.TINE_CENTER_HEIGHT, Variant1.TINE_EDGE_STEP.
    apply Z.mod_small. lia. }
  rewrite W. destruct (Z.eq_dec pos p) as [->|N].
  - replace (_ && _) with true; [reflexivity|]. symmetry.
    rewrite !andb_true_iff, !Z.leb_le, Z.ltb_lt. lia.
  - replace (_ && _) with false.
    + unfold u8. rewrite Z.mod_small by lia. apply IH; lia.
    + symmetry. rewrite !andb_false_iff, !Z.leb_gt, Z.ltb_ge.
      pose proof (Facts1.getTineX_eq pos ltac:(lia)) as Epos.
      pose proof (Facts1.getTineX_eq p ltac:(lia)) as Ep.
      rewrite Epos. rewrite Ep in Hx.
      change Variant1.TINE_START_X with 8 in *. change Variant1.TINE_PITCH with 18 in *.
      unfold Variant1.TINE_WIDTH in *. lia.
Qed.

(** X1. Symmetric taper: in both variants the tine at [pos] is as long as the
    tine at [16 - pos], no tine is longer than the centre tine, and only the
    centre tine has the centre's length. *)
Theorem X1_taper_symmetric (pos : Z) :
  0 <= pos <= 16 ->
  Variant1.getTineHeight pos = Variant1.getTineHeight (16 - pos) /\
  Variant1.getTineHeight pos <= Variant1.getTineHeight 8 /\
  (Variant1.getTineHeight pos = Variant1.getTineHeight 8 -> pos = 8) /\
  Variant2.getBarHeight pos = Variant2.getBarHeight (16 - pos) /\
  Variant2.getBarHeight pos <= Variant2.getBarHeight Variant2.centerIndex /\
  (Variant2.getBarHeight pos = Variant2.getBarHeight Variant2.centerIndex ->
   pos = Variant2.centerIndex).
Proof.
  intros Hp.
  rewrite !Facts1.getTineHeight_eq by lia.
  unfold Variant2.getBarHeight. rewrite Facts2.centerIndex_eq.
  unfold Variant1.TINE_CENTER_HEIGHT, Variant1.TINE_EDGE_STEP,
    Variant2.maxHeight, Variant2.stepHeight.
  repeat split; lia.
Qed.

Lemma X1_taper_symmetric_witness :
  Variant1.getTineHeight 2 = Variant1.getTineHeight (16 - 2) /\
  Variant1.getTineHeight 2 <= Variant1.getTineHeight 8 /\
  (Variant1.getTineHeight 2 = Variant1.getTineHeight 8 -> 2 = 8) /\
  Variant2.getBarHeight 2 = Variant2.getBarHeight (16 - 2) /\
  Variant2.getBarHeight 2 <= Variant2.getBarHeight Variant2.centerIndex /\
  (Variant2.getBarHeight 2 = Variant2.getBarHeight Variant2.centerIndex ->
   2 = Variant2.centerIndex).
Proof. apply (X1_taper_symmetric 2). lia. Defined.

(** X2. Variant 1: [getKeyAtPosition] returns tine [p] exactly for the
    points of its rectangle: 16 pixels wide from [getTineX p], from the
    bridge line down to the tip, both ends included.  The two-pixel gaps
    between tines and the area below a tip belong to no tine. *)
Theorem X2_hit_exactly_inside (p x y : Z) :
  0 <= p <= 16 ->
  Variant1.getKeyAtPosition x y = p <->
  Variant1.getTineX p <= x < Variant1.getTineX p + Variant1.TINE_WIDTH /\
  Variant1.BRIDGE_Y <= y <= Variant1.BRIDGE_Y + Variant1.getTineHeight p.
Proof.
  intros Hp. split.
  - intros E. apply (Facts1.getKeyAtPosition_inside x y p E). lia.
  - intros [Hx Hy]. unfold Variant1.getKeyAtPosition.
    destruct (Z.ltb_spec y Variant1.BRIDGE_Y); [lia|].
    apply scan_finds; simpl; lia.
Qed.

Lemma X2_hit_exactly_inside_witness :
  Variant1.getKeyAtPosition 77 132 = 3 <->
  Variant1.getTineX 3 <= 77 < Variant1.getTineX 3 + Variant1.TINE_WIDTH /\
  Variant1.BRIDGE_Y <= 132 <= Variant1.BRIDGE_Y + Variant1.getTineHeight 3.
Proof. apply (X2_hit_exactly_inside 3 77 132). lia. Defined.

(** X3. Variant 1: the touch point is passed to [getKeyAtPosition] as
    unsigned 16-bit values, so a point with a negative coordinate, such as
    the (-1, -1) of an absent touch, wraps far beyond the tines and hits
    none. *)
Theorem X3_negative_point_hits_nothing (inp : Variant1.Input) :
  -32768 <= fst (Variant1.Touch_point0 inp) <= 32767 ->
  -32768 <= snd (Variant1.Touch_point0 inp) <= 32767 ->
  fst (Variant1.Touch_point0 inp) < 0 \/ snd (Variant1.Touch_point0 inp) < 0 ->
  Spec1.hit inp = -1.
Proof.
  intros Hx Hy Hneg. unfold Spec1.hit. apply Facts1.getKeyAtPosition_off.
  unfold u16. destruct Hneg as [N|N].
  - right; left.
    replace (fst (Variant1.Touch_point0 inp))
      with (fst (Variant1.Touch_point0 inp) + 65536 + (-1) * 65536) by lia.
    rewrite Z.mod_add by lia. rewrite Z.mod_small; lia.
  - right; right; right.
    replace (snd (Variant1.Touch_point0 inp))
      with (snd (Variant1.Touch_point0 inp) + 65536 + (-1) * 65536) by lia.
    rewrite Z.mod_add by lia. rewrite Z.mod_small; lia.
Qed.

Lemma X3_negative_point_hits_nothing_witness :
  Spec1.hit (Variant1.mkInput false false true 1 (-1, -1)) = -1.
Proof.
  apply (X3_negative_point_hits_nothing
           (Variant1.mkInput false false true 1 (-1, -1))); simpl; lia.
Defined.

(** X4. Variant 2: the hit test of [loop] returns bar [b] exactly for
    [y] between [barY] and the bar's lower end and [x] in the 18 columns
    from [18 * b], the undrawn last column included; since the division
    truncates towards zero, the 17 columns left of the screen also count for
    bar 0.  Columns from 306 on belong to no bar. *)
Theorem X4_bar_exactly_inside (b x y : Z) :
  Variant2.barAt x y = Some b <->
  0 <= b <= 16 /\
  (18 * b <= x < 18 * b + 18 \/ (b = 0 /\ -18 < x < 0)) /\
  Variant2.barY <= y <= Variant2.barY + Variant2.getBarHeight b.
Proof.
  split.
  - intros E. apply Facts2.barAt_inside in E as (Hb & Hq & Hy).
    split; [exact Hb|]. split; [|exact Hy].
    rewrite Facts2.barWidth_eq in Hq. pose proof (Z.quot_rem' x 18) as Hx.
    destruct (Z_le_gt_dec 0 x) as [Hpos|Hneg].
    + pose proof (Z.rem_bound_pos x 18 Hpos ltac:(lia)) as Hr.
      rewrite <- Hq in Hx. left. lia.
    + pose proof (Z.rem_bound_pos_neg x 18 ltac:(lia) ltac:(lia)) as Hr.
      rewrite <- Hq in Hx. right. lia.
  - intros (Hb & Hx & Hy). unfold Variant2.barAt. rewrite Facts2.barWidth_eq.
    assert (x `quot` 18 = b) as ->.
    { destruct Hx as [Hx|[-> Hx]].
      - rewrite Z.quot_div_nonneg by lia. symmetry. apply (Z.div_unique x 18 b (x - 18 * b)); lia.
      - rewrite <- (Z.opp_involutive x), Z.quot_opp_l by lia.
        rewrite Z.quot_small by lia. reflexivity. }
    unfold Variant2.barCount.
    destruct (Z.leb_spec 0 b); [|lia]. destruct (Z.ltb_spec b 17); [|lia]. simpl.
    destruct (Z.leb_spec Variant2.barY y); [|lia].
    destruct (Z.leb_spec y (Variant2.barY + Variant2.getBarHeight b)); [|lia].
    reflexivity.
Qed.

(** X5. Both variants keep their tines on the 320 x 240 screen.  Variant 1:
    every tine lies between x = 8 and x = 312, the row is centred (8 pixels
    free on either side), consecutive tines are [TINE_WIDTH + TINE_GAP]
    apart, and the tip stays above the lower edge.  Variant 2: every bar
    drawn by [drawSingleBar] lies between x = 0 and x = 305 and ends above
    the lower edge. *)
Theorem X5_tines_on_screen (pos : Z) :
  0 <= pos <= 16 ->
  Variant1.getTineX 0 <= Variant1.getTineX pos /\
  Variant1.getTineX pos + Variant1.TINE_WIDTH
    <= Variant1.DISPLAY_WIDTH - Variant1.getTineX 0 /\
  Variant1.getTineX 16 + Variant1.TINE_WIDTH
    = Variant1.DISPLAY_WIDTH - Variant1.getTineX 0 /\
  (pos < 16 ->
   Variant1.getTineX (pos + 1)
   = Variant1.getTineX pos + Variant1.TINE_WIDTH + Variant1.TINE_GAP) /\
  Variant1.BRIDGE_Y + Variant1.getTineHeight pos < Variant1.DISPLAY_HEIGHT /\
  0 <= pos * Variant2.barWidth /\
  pos * Variant2.barWidth + (Variant2.barWidth - 1) <= 305 /\
  Variant2.barY + Variant2.getBarHeight pos < 240.
Proof.
  intros Hp. pose proof (Facts2.getBarHeight_bounds pos Hp).
  rewrite !Facts1.getTineX_eq, Facts1.getTineHeight_eq by lia.
  rewrite Facts2.barWidth_eq.
  change Variant1.TINE_START_X with 8. change Variant1.TINE_PITCH with 18.
  unfold Variant1.TINE_WIDTH, Variant1.TINE_GAP, Variant1.DISPLAY_WIDTH,
    Variant1.DISPLAY_HEIGHT, Variant1.BRIDGE_Y, Variant1.TINE_CENTER_HEIGHT,
    Variant1.TINE_EDGE_STEP, Variant2.barY.
  repeat split; try lia.
  intros Hlt. rewrite Facts1.getTineX_eq by lia.
  change Variant1.TINE_START_X with 8. change Variant1.TINE_PITCH with 18. lia.
Qed.

Lemma X5_tines_on_screen_witness :
  Variant1.getTineX 0 <= Variant1.getTineX 16 /\
  Variant1.getTineX 16 + Variant1.TINE_WIDTH
    <= Variant1.DISPLAY_WIDTH - Variant1.getTineX 0 /\
  Variant1.getTineX 16 + Variant1.TINE_WIDTH
    = Variant1.DISPLAY_WIDTH - Variant1.getTineX 0 /\
  (16 < 16 ->
   Variant1.getTineX (16 + 1)
   = Variant1.getTineX 16 + Variant1.TINE_WIDTH + Variant1.TINE_GAP) /\
  Variant1.BRIDGE_Y + Variant1.getTineHeight 16 < Variant1.DISPLAY_HEIGHT /\
  0 <= 16 * Variant2.barWidth /\
  16 * Variant2.barWidth + (Variant2.barWidth - 1) <= 305 /\
  Variant2.barY + Variant2.getBarHeight 16 < 240.
Proof. apply (X5_tines_on_screen 16). lia. Defined.

(** X6. Variant 1 tuning: a longer tine sounds lower, no two tines share a
    pitch, every pitch is a natural of C major in 60..88, and the name
    [drawTine] prints on the tine is the one-letter name of its pitch
    class. *)
Theorem X6_longer_tine_lower_pitch `{Vendor} (p q : Z) :
  0 <= p <= 16 -> 0 <= q <= 16 ->
  (Variant1.getTineHeight q < Variant1.getTineHeight p ->
   Spec1.basePitch p < Spec1.basePitch q) /\
  (Spec1.basePitch p = Spec1.basePitch q -> p = q) /\
  60 <= Spec1.basePitch p <= 88 /\
  In (Spec1.basePitch p mod 12) [0; 2; 4; 5; 7; 9; 11] /\
  forall pressed, exists pre name,
    Spec1.drawTine_trace p pressed = pre ++ [Lcd (print name)] /\
    nth_error Variant1.note_names (Z.to_nat (Spec1.basePitch p mod 12)) = Some name /\
    String.length name = 1%nat.
Proof.
  intros Hp Hq. split; [|split; [|split; [|split]]].
  - revert Hq. each_position p 0 17; intros Hq; each_position q 0 17;
      vm_compute; congruence.
  - revert Hq. each_position p 0 17; intros Hq; each_position q 0 17;
      vm_compute; congruence.
  - apply Facts1.basePitch_range, Hp.
  - each_position p 0 17; vm_compute; tauto.
  - intros pressed. each_position p 0 17; destruct pressed;
      eexists (_ :: _ :: _ :: _ :: _ :: _ :: _ :: _ :: []), _;
      (split; [reflexivity | split; reflexivity]).
Qed.

Lemma X6_longer_tine_lower_pitch_witness :
  (Variant1.getTineHeight 0 < Variant1.getTineHeight 8 ->
   Spec1.basePitch 8 < Spec1.basePitch 0) /\
  (Spec1.basePitch 8 = Spec1.basePitch 0 -> 8 = 0) /\
  60 <= Spec1.basePitch 8 <= 88 /\
  In (Spec1.basePitch 8 mod 12) [0; 2; 4; 5; 7; 9; 11] /\
  forall pressed, exists pre name,
    Spec1.drawTine_trace (H := midi) 8 pressed = pre ++ [Lcd (print name)] /\
    nth_error Variant1.note_names (Z.to_nat (Spec1.basePitch 8 mod 12)) = Some name /\
    String.length name = 1%nat.
Proof. apply (X6_longer_tine_lower_pitch (H := midi) 8 0); lia. Defined.

(** ** Variant 1: the mode indicator, pitches and pairing *)

Lemma paired_synth cur tr : paired cur (synth tr) = paired cur tr.
Proof.
  revert cur. induction tr as [|e tr IH]; intros cur; [reflexivity|].
  destruct e; simpl; try apply IH.
  - destruct cur; [reflexivity | apply IH].
  - destruct cur as [q|]; [|reflexivity]. destruct (q =? pitch); [apply IH | reflexivity].
Qed.

Lemma paired_app cur a b c :
  paired cur a = Some c -> paired cur (a ++ b) = paired c b.
Proof.
  revert cur. induction a as [|e a IH]; intros cur E; simpl in *.
  - now injection E as <-.
  - destruct e; try (apply IH; exact E).
    + destruct cur; [discriminate | apply IH; exact E].
    + destruct cur as [q|]; [|discriminate].
      destruct (q =? pitch); [apply IH; exact E | discriminate].
Qed.

Section Variant1More.
Context `{Vendor}.
Import Variant1 Spec1.

(** The open note follows the state, one tick at a time. *)
Lemma tick_paired s inp :
  wf s ->
  paired (active_note s) (tick_trace s inp) = Some (active_note (tick_state s inp)).
Proof.
  intros W. rewrite <- paired_synth, (Tick1.tick_synth_v1 s inp W).
  unfold tick_state, active_note. pose proof W as [Ht _].
  destruct (fires s inp) eqn:F; simpl.
  - apply Runs1.fires_spec in F as (_ & _ & Hp & _).
    destruct (Z.leb_spec 0 (hit inp)); [|lia].
    destruct (0 <=? active_tine s); simpl; rewrite ?Z.eqb_refl; reflexivity.
  - destruct (Touch_points inp =? 0); simpl.
    + destruct (0 <=? active_tine s); simpl; rewrite ?Z.eqb_refl; reflexivity.
    + destruct (0 <=? active_tine s); reflexivity.
Qed.

Lemma ticks_paired inputs :
  forall s0, wf s0 ->
  exists s tr,
    ticks loop inputs s0 = Some (tt, s, tr) /\ wf s /\
    paired (active_note s0) tr = Some (active_note s).
Proof.
  induction inputs as [|inp rest IH]; intros s0 W.
  - exists s0, []. split; [reflexivity|]. split; [exact W | reflexivity].
  - destruct (IH _ (Tick1.tick_state_wf_v1 s0 inp W)) as (s & tr & E & Ws & P).
    exists s, (tick_trace s0 inp ++ tr). simpl.
    rewrite (bind_ok _ _ _ _ _ _ _ _ _ (Tick1.loop_run_v1 inp s0 W) E).
    split; [reflexivity|]. split; [exact Ws|].
    rewrite (paired_app _ _ _ _ (tick_paired s0 inp W)). exact P.
Qed.

Lemma tick_state_tuned s inp : wf s -> tuned s -> tuned (tick_state s inp).
Proof.
  intros W T. unfold tick_state. pose proof (Tick1.hit_range inp) as R.
  destruct (fires s inp) eqn:F.
  - apply Runs1.fires_spec in F as (_ & _ & Hp & _). right. simpl.
    destruct (Run1.loop_semitone_offset_cases inp) as [->|[->| ->]]; lia.
  - destruct (Touch_points inp =? 0); [left; split; reflexivity | exact T].
Qed.

Lemma reachable_tuned s : reachable s -> tuned s.
Proof.
  induction 1 as [s tr E | s inp s' tr R IH E].
  - destruct Tick1.setup_run_v1 as [tr' E']. rewrite E' in E. injection E as <- _.
    left. split; reflexivity.
  - pose proof (Tick1.reachable_wf_v1 s R) as W.
    rewrite (Tick1.loop_run_v1 inp s W) in E. injection E as <- _.
    apply tick_state_tuned; assumption.
Qed.
End Variant1More.

(** X7. Variant 1: [drawModeIndicator] redraws only when the offset differs
    from the one it drew last.  It records the offset, touches no other
    global and sends no synth command; called again with the same offset it
    draws nothing; on a change it first clears the indicator area, and on a
    change back to natural (0) it clears the area and prints nothing. *)
Theorem X7_mode_indicator_on_change `{Vendor} (offset : Z) (s : Variant1.State) :
  exists tr,
    Variant1.drawModeIndicator offset s = Some (tt, Spec1.with_prev s offset, tr) /\
    synth tr = [] /\
    (offset = Variant1.prev_offset s -> tr = []) /\
    (offset <> Variant1.prev_offset s ->
     exists rest,
       tr = Lcd (fillRect (Variant1.DISPLAY_WIDTH - 30) 2 28 16 Variant1.COL_WOOD)
            :: Lcd (setTextSize 2) :: rest /\
       (offset = 0 -> rest = [])) /\
    Variant1.drawModeIndicator offset (Spec1.with_prev s offset)
      = Some (tt, Spec1.with_prev s offset, []).
Proof.
  exists (Spec1.mode_trace offset (Variant1.prev_offset s)).
  split; [apply Run1.drawModeIndicator_run|].
  split; [apply Run1.mode_trace_silent|].
  unfold Spec1.mode_trace, trace_of, Variant1.drawModeIndicator, bind, get. simpl.
  split; [|split].
  - intros ->. now rewrite Z.eqb_refl.
  - intros N. destruct (Z.eqb_spec offset (Variant1.prev_offset s)); [congruence|].
    destruct (Z.eqb_spec offset (-1)); [eexists; split; [reflexivity | lia]|].
    destruct (Z.eqb_spec offset 1); eexists; (split; [reflexivity|]);
      [lia | reflexivity].
  - now rewrite Z.eqb_refl.
Qed.

(** X8. Variant 1: in every reachable state either no tine is active and the
    stored pitch is 0, or the stored pitch is that of the active tine shifted
    by at most one semitone; and every synth command [loop] sends goes to
    channel 0, with velocity 100 for a note-on and 0 for a note-off, and
    with a pitch in 59..89. *)
Theorem X8_pitches_in_range `{Vendor} (s : Variant1.State) (inp : Variant1.Input) :
  Spec1.reachable s ->
  tuned s /\
  exists s' tr,
    Variant1.loop inp s = Some (tt, s', tr) /\
    Forall (note_within 59 89) (synth tr).
Proof.
  intros R. pose proof (Tick1.reachable_wf_v1 s R) as W.
  pose proof (reachable_tuned s R) as T. split; [exact T|].
  exists (Spec1.tick_state s inp), (Spec1.tick_trace s inp).
  split; [apply Tick1.loop_run_v1, W|].
  rewrite (Tick1.tick_synth_v1 s inp W). pose proof (Tick1.hit_range inp) as HR.
  assert (Forall (note_within 59 89)
            (if 0 <=? Variant1.active_tine s
             then [setNoteOff 0 (Variant1.active_note_pitch s) 0] else [])) as Off.
  { destruct (Z.leb_spec 0 (Variant1.active_tine s)); [|constructor].
    destruct T as [[T _]|[Ht Tp]]; [lia|].
    pose proof (Facts1.basePitch_range _ Ht).
    repeat constructor; lia. }
  apply Forall_app. split.
  - destruct (_ || _); [exact Off | constructor].
  - destruct (Spec1.fires s inp) eqn:F; [|constructor].
    apply Runs1.fires_spec in F as (_ & _ & Hp & _).
    pose proof (Facts1.basePitch_range (Spec1.hit inp) ltac:(lia)).
    destruct (Run1.loop_semitone_offset_cases inp) as [->|[->| ->]];
      repeat constructor; lia.
Qed.

Lemma X8_pitches_in_range_witness :
  tuned Variant1.init /\
  exists s' tr,
    Variant1.loop (H := midi) (Variant1.mkInput true false true 1 (9, 30))
      Variant1.init = Some (tt, s', tr) /\
    Forall (note_within 59 89) (synth tr).
Proof.
  apply (X8_pitches_in_range (H := midi)).
  eapply Spec1.reach_setup. vm_compute. reflexivity.
Defined.

(** X9. Variant 1: over any run from power-up the synth commands are paired:
    a note-on is sent only while no note is open, a note-off only for the
    pitch of the open note, and the note left open at the end is the one the
    state records. *)
Theorem X9_notes_paired `{Vendor} (inputs : list Variant1.Input) :
  exists s tr,
    Spec1.boot inputs Variant1.init = Some (tt, s, tr) /\
    paired None tr = Some (active_note s).
Proof.
  destruct (ticks_paired inputs Variant1.init Runs1.wf_init) as (s & tr & E & _ & P).
  exists s, (trace_of Variant1.setup Variant1.init ++ tr). unfold Spec1.boot.
  assert (Variant1.setup Variant1.init
          = Some (tt, Variant1.init, trace_of Variant1.setup Variant1.init)) as E0
    by reflexivity.
  rewrite (bind_ok _ _ _ _ _ _ _ _ _ E0 E). split; [reflexivity|].
  assert (paired None (trace_of Variant1.setup Variant1.init) = Some None) as P0
    by reflexivity.
  rewrite (paired_app _ _ _ _ P0). exact P.
Qed.

(** X10. Variant 1 leaves no note hanging: whatever happened before, after a
    call of [loop] that reports no touch point nothing is sounding, no
    pressed flag is set, and the active tine and pitch are reset. *)
Theorem X10_silent_after_lift `{Vendor}
    (inputs : list Variant1.Input) (lift : Variant1.Input) :
  Variant1.Touch_points lift = 0 ->
  exists s tr,
    Spec1.boot (inputs ++ [lift]) Variant1.init = Some (tt, s, tr) /\
    sounding [] tr = [] /\
    Variant1.key_pressed s = replicate 17 false /\
    Variant1.active_tine s = -1 /\
    Variant1.active_note_pitch s = 0.
Proof.
  intros L.
  destruct (Runs1.ticks_run inputs Variant1.init Runs1.wf_init)
    as (s0 & tr0 & E & W & _ & Snd & _).
  destruct (Runs1.tick_sounding s0 lift W) as [Snd1 _].
  assert (Spec1.fires s0 lift = false) as F.
  { apply not_true_iff_false. rewrite Runs1.fires_spec. lia. }
  assert (Spec1.tick_state s0 lift
          = Spec1.idle_state (Variant1.loop_semitone_offset lift)) as ES.
  { unfold Spec1.tick_state. now rewrite F, L. }
  assert (ticks Variant1.loop [lift] s0
          = Some (tt, Spec1.tick_state s0 lift, Spec1.tick_trace s0 lift ++ [])) as E1.
  { simpl. now rewrite (bind_ok _ _ _ _ _ _ _ _ _ (Tick1.loop_run_v1 lift s0 W) eq_refl). }
  pose proof (ticks_app_ok _ _ _ _ _ _ _ _ E E1) as E2.
  assert (Variant1.setup Variant1.init
          = Some (tt, Variant1.init, trace_of Variant1.setup Variant1.init)) as E0
    by reflexivity.
  assert (synth (trace_of Variant1.setup Variant1.init) = []) as Q0 by reflexivity.
  eexists _, _. unfold Spec1.boot.
  rewrite (bind_ok _ _ _ _ _ _ _ _ _ E0 E2). split; [reflexivity|].
  rewrite ES. split; [|repeat split].
  rewrite <- sounding_synth, synth_app, Q0. simpl. rewrite sounding_synth.
  rewrite app_nil_r, sounding_app. unfold Spec1.sounding_of in Snd. simpl in Snd.
  rewrite Snd. fold (Spec1.sounding_of s0). rewrite Snd1, ES. reflexivity.
Qed.

Lemma X10_silent_after_lift_witness :
  exists s tr,
    Spec1.boot (H := midi)
      ([Variant1.mkInput false true true 1 (63, 23);
        Variant1.mkInput false false true 1 (100, 30)]
       ++ [Variant1.mkInput false false true 0 (-1, -1)])
      Variant1.init = Some (tt, s, tr) /\
    sounding [] tr = [] /\
    Variant1.key_pressed s = replicate 17 false /\
    Variant1.active_tine s = -1 /\
    Variant1.active_note_pitch s = 0.
Proof. apply (X10_silent_after_lift (H := midi)). reflexivity. Defined.

(** X11. Variant 1: while the finger stays down, wandering off the tines
    and back onto the sounding tine [P] neither stops nor restarts the note:
    over any number of such ticks no synth command is sent and tine [P]
    stays the active one with its pitch. *)
Theorem X11_wandering_keeps_note `{Vendor}
    (P off prev : Z) (ws : list Variant1.Input) :
  0 <= P <= 16 ->
  Forall (wanders P) ws ->
  exists prev' tr,
    ticks Variant1.loop ws (Spec1.pressed_state P off prev)
      = Some (tt, Spec1.pressed_state P off prev', tr) /\
    synth tr = [].
Proof.
  intros HP F. revert prev. induction F as [|inp rest [N Hh] _ IH]; intros prev.
  - exists prev, []. split; reflexivity.
  - assert (Spec1.wf (Spec1.pressed_state P off prev)) as W
      by (split; [simpl; lia | reflexivity]).
    assert (Spec1.fires (Spec1.pressed_state P off prev) inp = false) as Fi.
    { apply not_true_iff_false. rewrite Runs1.fires_spec. simpl. lia. }
    assert (Spec1.tick_state (Spec1.pressed_state P off prev) inp
            = Spec1.pressed_state P off (Variant1.loop_semitone_offset inp)) as ES.
    { unfold Spec1.tick_state. rewrite Fi.
      destruct (Z.eqb_spec (Variant1.Touch_points inp) 0); [lia | reflexivity]. }
    assert (synth (Spec1.tick_trace (Spec1.pressed_state P off prev) inp) = []) as ET.
    { rewrite (Tick1.tick_synth_v1 _ inp W), Fi.
      destruct (Z.eqb_spec (Variant1.Touch_points inp) 0); [lia | reflexivity]. }
    destruct (IH (Variant1.loop_semitone_offset inp)) as (prev' & tr & E & Q).
    exists prev', (Spec1.tick_trace (Spec1.pressed_state P off prev) inp ++ tr).
    simpl. pose proof (Tick1.loop_run_v1 inp _ W) as E1. rewrite ES in E1.
    rewrite (bind_ok _ _ _ _ _ _ _ _ _ E1 E).
    split; [reflexivity|]. now rewrite synth_app, ET, Q.
Qed.

Lemma X11_wandering_keeps_note_witness :
  exists prev' tr,
    ticks (Variant1.loop (H := midi))
      [Variant1.mkInput false false true 1 (79, 30);
       Variant1.mkInput true false true 1 (63, 200);
       Variant1.mkInput false false true 1 (64, 40)]
      (Spec1.pressed_state 3 1 1)
      = Some (tt, Spec1.pressed_state 3 1 prev', tr) /\
    synth tr = [].
Proof.
  apply (X11_wandering_keeps_note (H := midi) 3 1 1); [lia|].
  repeat (apply Forall_cons_2; [split; [reflexivity | vm_compute; auto]|]).
  apply Forall_nil_2.
Defined.

(** ** Variant 2: gestures and the shape of the synth trace *)

Lemma plucks_and_ons_pluck p v w rest :
  plucks_and_ons (setNoteOn 0 p v :: setNoteOff 0 p w :: rest) = plucks_and_ons rest.
Proof. simpl. now rewrite Z.eqb_refl. Qed.

Lemma plucks_and_ons_on p v rest :
  plucks_and_ons rest = true -> plucks_and_ons (setNoteOn 0 p v :: rest) = true.
Proof. destruct rest as [|[] rest]; simpl; auto; discriminate. Qed.

Section Variant2More.
Context `{Vendor}.
Import Variant2 Spec2.

Lemma ticks_plucks inputs :
  forall s0, wf s0 ->
  exists s tr,
    ticks loop inputs s0 = Some (tt, s, tr) /\ wf s /\
    (reachable s0 -> reachable s) /\
    plucks_and_ons (synth tr) = true.
Proof.
  induction inputs as [|inp rest IH]; intros s0 W.
  - exists s0, []. split; [reflexivity|]. split; [exact W|]. split; [auto | reflexivity].
  - destruct (IH _ (Facts2.tick_state_wf_v2 s0 inp W)) as (s & tr & E & Ws & R & P).
    exists s, (tick_trace s0 inp ++ tr). simpl.
    rewrite (bind_ok _ _ _ _ _ _ _ _ _ (Facts2.loop_run_v2 inp s0 W) E).
    split; [reflexivity|]. split; [exact Ws|]. split.
    + intros R0. apply R. eapply reach_loop; [exact R0 | apply Facts2.loop_run_v2, W].
    + rewrite synth_app, (Facts2.tick_synth_v2 s0 inp W).
      destruct (Touch_ispressed inp).
      * destruct (hit inp) as [b|]; [|exact P].
        destruct (selectedBar s0 =? b); [exact P|].
        unfold pluck_synth. simpl app. rewrite plucks_and_ons_pluck. exact P.
      * destruct (fires_on_release s0); [|exact P].
        simpl app. apply plucks_and_ons_on, P.
Qed.

Lemma last_bar_from_range acc l :
  -1 <= acc <= 16 -> -1 <= last_bar_from acc l <= 16.
Proof.
  revert acc. induction l as [|inp l IH]; intros acc Ha; [exact Ha|].
  unfold last_bar_from in *. simpl. apply IH.
  destruct (hit inp) as [b|] eqn:E; [|exact Ha].
  apply Facts2.barAt_inside in E as [Hb _]. lia.
Qed.

(** A run of ticks with the screen touched. *)
Lemma touched_run l :
  Forall (fun inp => Touch_ispressed inp = true) l ->
  forall s, wf s -> coherent s ->
  exists s1 tr,
    ticks loop l s = Some (tt, s1, tr) /\ wf s1 /\ coherent s1 /\
    lastPressedBar s1 = last_bar_from (lastPressedBar s) l /\
    wasPressed s1 = match l with [] => wasPressed s | _ => true end.
Proof.
  induction 1 as [|inp rest P _ IH]; intros s W C.
  - exists s, []. split; [reflexivity|]. split; [exact W|]. split; [exact C|].
    split; reflexivity.
  - assert (coherent (tick_state s inp) /\ wasPressed (tick_state s inp) = true /\
            lastPressedBar (tick_state s inp)
            = match hit inp with Some b => b | None => lastPressedBar s end)
      as (C1 & WP & LP).
    { unfold tick_state, coherent. rewrite P.
      destruct (hit inp); simpl; auto. }
    destruct (IH _ (Facts2.tick_state_wf_v2 s inp W) C1) as (s1 & tr & E & W1 & C2 & L & WP1).
    exists s1, (tick_trace s inp ++ tr). simpl.
    rewrite (bind_ok _ _ _ _ _ _ _ _ _ (Facts2.loop_run_v2 inp s W) E).
    split; [reflexivity|]. split; [exact W1|]. split; [exact C2|]. split.
    + rewrite L, LP. reflexivity.
    + rewrite WP1, WP. now destruct rest.
Qed.

Lemma tick_state_coherent s inp :
  coherent s /\ (wasPressed s = false -> s = init) ->
  coherent (tick_state s inp) /\
  (wasPressed (tick_state s inp) = false -> tick_state s inp = init).
Proof.
  intros [C I]. unfold tick_state, coherent in *.
  destruct (Touch_ispressed inp).
  - destruct (hit inp); simpl; split; auto; discriminate.
  - unfold fires_on_release. destruct (wasPressed s) eqn:WP; simpl.
    + destruct (Z.eqb_spec (lastPressedBar s) (-1)) as [E|N]; simpl; [|auto].
      split; [exact C|]. intros _. unfold init. f_equal; [|exact E].
      destruct C as [C|C]; congruence.
    + rewrite (I eq_refl). simpl. auto.
Qed.

End Variant2More.

(** X12. Variant 2: [loop] never fails, whatever the touch inputs from
    power-up, and the synth commands of the whole run are made of plucks (a
    note-on directly followed by the note-off of the same pitch) and of
    note-ons that no note-off follows; a note-off is never sent on its
    own. *)
Theorem X12_plucks_and_lone_note_ons `{Vendor} (inputs : list Variant2.Input) :
  exists s tr,
    Spec2.boot inputs Variant2.init = Some (tt, s, tr) /\
    Spec2.reachable s /\
    plucks_and_ons (synth tr) = true.
Proof.
  assert (Spec2.wf Variant2.init) as W0 by (split; simpl; lia).
  destruct (ticks_plucks inputs Variant2.init W0) as (s & tr & E & _ & R & P).
  assert (Variant2.setup Variant2.init
          = Some (tt, Variant2.init, trace_of Variant2.setup Variant2.init)) as E0
    by reflexivity.
  assert (synth (trace_of Variant2.setup Variant2.init) = []) as Q0 by reflexivity.
  exists s, (trace_of Variant2.setup Variant2.init ++ tr). unfold Spec2.boot.
  rewrite (bind_ok _ _ _ _ _ _ _ _ _ E0 E). split; [reflexivity|]. split.
  - apply R. eapply Spec2.reach_setup. exact E0.
  - rewrite synth_app, Q0. exact P.
Qed.

(** X13. Variant 2: after any touch gesture, the tick that sees the finger
    lifted sends a single note-on for the last bar the finger was on, even
    when the finger had left the bars before lifting, and nothing at all
    when the gesture never was on a bar; it leaves the state as at
    power-up. *)
Theorem X13_lift_plays_last_bar `{Vendor}
    (gesture : list Variant2.Input) (lift : Variant2.Input) :
  Forall (fun inp => Variant2.Touch_ispressed inp = true) gesture ->
  Spec2.no_touch lift ->
  exists s tr tr',
    ticks Variant2.loop gesture Variant2.init = Some (tt, s, tr) /\
    Variant2.loop lift s = Some (tt, Variant2.init, tr') /\
    -1 <= last_bar gesture <= 16 /\
    synth tr' =
      if last_bar gesture =? -1 then []
      else [setNoteOn 0 (Spec2.note (last_bar gesture)) 127].
Proof.
  intros G L.
  assert (Spec2.wf Variant2.init) as W0 by (split; simpl; lia).
  destruct (touched_run gesture G Variant2.init W0 ltac:(left; reflexivity))
    as (s & tr & E & W & C & LP & WP).
  exists s, tr, (Spec2.tick_trace s lift).
  split; [exact E|].
  change (last_bar_from (Variant2.lastPressedBar Variant2.init) gesture)
    with (last_bar gesture) in LP.
  assert (Spec2.tick_state s lift = Variant2.init
          /\ Spec2.fires_on_release s = negb (last_bar gesture =? -1)) as [ES EF].
  { unfold Spec2.tick_state, Spec2.fires_on_release. unfold Spec2.no_touch in L.
    rewrite L, LP, WP. destruct gesture as [|g gs].
    - simpl in E. injection E as <- _. split; reflexivity.
    - simpl. destruct (Z.eqb_spec (last_bar (g :: gs)) (-1)) as [E1|N]; simpl;
        [|split; reflexivity].
      split; [|reflexivity]. destruct s as [sel lp wp]. simpl in *. unfold Variant2.init.
      f_equal; [|congruence]. destruct C as [C|C]; simpl in C; congruence. }
  split; [rewrite <- ES; apply Facts2.loop_run_v2, W|].
  split; [apply last_bar_from_range; lia|].
  rewrite (Facts2.tick_synth_v2 s lift W). unfold Spec2.no_touch in L.
  rewrite L, EF, LP. destruct (last_bar gesture =? -1); reflexivity.
Qed.

Lemma X13_lift_plays_last_bar_witness :
  exists s tr tr',
    ticks (Variant2.loop (H := midi))
      [Variant2.mkInput true (60, 100); Variant2.mkInput true (95, 100);
       Variant2.mkInput true (95, 230)] Variant2.init = Some (tt, s, tr) /\
    Variant2.loop (H := midi) (Variant2.mkInput false (-1, -1)) s
      = Some (tt, Variant2.init, tr') /\
    -1 <= 5 <= 16 /\
    synth tr' = [setNoteOn 0 57 127].
Proof.
  apply (X13_lift_plays_last_bar (H := midi)
           [Variant2.mkInput true (60, 100); Variant2.mkInput true (95, 100);
            Variant2.mkInput true (95, 230)] (Variant2.mkInput false (-1, -1))).
  - repeat constructor.
  - reflexivity.
Defined.

(** X14. Variant 2: in every reachable state a highlighted bar is the last
    bar pressed, and whenever the previous tick saw no touch the globals are
    exactly as at power-up, so that every gesture starts from the same
    state. *)
Theorem X14_gestures_start_afresh `{Vendor} (s : Variant2.State) :
  Spec2.reachable s ->
  coherent s /\ (Variant2.wasPressed s = false -> s = Variant2.init).
Proof.
  induction 1 as [s tr E | s inp s' tr R IH E].
  - destruct Facts2.setup_run_v2 as [tr' E']. rewrite E' in E. injection E as <- _.
    split; [left; reflexivity | reflexivity].
  - pose proof (Facts2.reachable_wf_v2 s R) as W.
    rewrite (Facts2.loop_run_v2 inp s W) in E. injection E as <- _.
    apply tick_state_coherent, IH.
Qed.

Lemma X14_gestures_start_afresh_witness :
  coherent (Variant2.mkState (-1) 3 true) /\
  (Variant2.wasPressed (Variant2.mkState (-1) 3 true) = false ->
   Variant2.mkState (-1) 3 true = Variant2.init).
Proof.
  apply (X14_gestures_start_afresh (H := midi)).
  eapply Spec2.reach_loop with (inp := Variant2.mkInput true (60, 10)).
  - eapply Spec2.reach_loop with (inp := Variant2.mkInput true (60, 100)).
    + eapply Spec2.reach_setup. vm_compute. reflexivity.
    + vm_compute. reflexivity.
  - vm_compute. reflexivity.
Defined.

(** X15. Variant 2: [playNoteShort] and [playNote] check the index
    themselves: outside 0..16 they send nothing, and they never read
    [notes] out of bounds or change a global.  Inside, [playNoteShort] sends
    note-on, waits 5 ms and sends note-off, and [playNote] sends the note-on
    or the note-off its flag asks for, all for [notes[index]] on channel 0
    with velocity 127; a [playNote] on followed by a [playNote] off leaves
    nothing sounding. *)
Theorem X15_players_guard_index `{Vendor} (index : Z) (s : Variant2.State) :
  Variant2.playNoteShort index s
    = Some (tt, s, if (0 <=? index) && (index <=? 16) then Spec2.pluck index else []) /\
  Variant2.playNote index true s
    = Some (tt, s, if (0 <=? index) && (index <=? 16)
                   then [setNoteOn 0 (Spec2.note index) 127] else []) /\
  Variant2.playNote index false s
    = Some (tt, s, if (0 <=? index) && (index <=? 16)
                   then [setNoteOff 0 (Spec2.note index) 127] else []) /\
  sounding []
    (trace_of (Variant2.playNote index true ;;; Variant2.playNote index false) s) = [].
Proof.
  unfold Variant2.playNoteShort, Variant2.playNote, Variant2.barCount, trace_of.
  destruct (Z.leb_spec 0 index) as [H0|H0]; simpl;
    [destruct (Z.leb_spec index 16) as [H1|H1]|].
  - destruct (Z.ltb_spec index 17); [|lia]. simpl.
    assert (forall s' : Variant2.State,
              elem Variant2.notes index s' = Some (Spec2.note index, s', []))
      as E by (intros s'; each_position index 0 17; reflexivity).
    unfold Spec2.pluck, bind, emit. rewrite !E. simpl. rewrite Z.eqb_refl.
    repeat split.
  - destruct (Z.ltb_spec index 17); [lia|]. repeat split.
  - repeat split.
Qed.

(** X16. The drawing functions read their tables without a check of their
    own: [drawTine] (variant 1) and [drawSingleBar] (variant 2) are defined
    exactly for the indices 0..16, and there they change no global and send
    no synth command. *)
Theorem X16_drawing_needs_valid_index `{Vendor}
    (index color : Z) (pressed : bool)
    (s1 : Variant1.State) (s2 : Variant2.State) :
  (Variant1.drawTine index pressed s1 <> None <-> 0 <= index <= 16) /\
  (Variant2.drawSingleBar index color s2 <> None <-> 0 <= index <= 16) /\
  (0 <= index <= 16 ->
   (exists tr, Variant1.drawTine index pressed s1 = Some (tt, s1, tr) /\ synth tr = []) /\
   (exists tr, Variant2.drawSingleBar index color s2 = Some (tt, s2, tr) /\ synth tr = [])).
Proof.
  split; [|split].
  - split.
    + intros N. destruct (Z_le_gt_dec 0 index); [destruct (Z_le_gt_dec index 16)|];
        [lia | |]; exfalso; apply N, drawTine_out_of_bounds; lia.
    + intros Hi. now rewrite (Run1.drawTine_run index pressed s1 Hi).
  - split.
    + intros N. destruct (Z_le_gt_dec 0 index); [destruct (Z_le_gt_dec index 16)|];
        [lia | |]; exfalso; apply N, drawSingleBar_out_of_bounds; lia.
    + intros Hi. now rewrite (Facts2.drawSingleBar_run index color s2 Hi).
  - intros Hi. split; eexists; split.
    + apply Run1.drawTine_run, Hi.
    + apply Run1.drawTine_silent, Hi.
    + apply Facts2.drawSingleBar_run, Hi.
    + apply Facts2.drawSingleBar_silent, Hi.
Qed.

(** X17. Variant 2 lets notes pile up: from power-up, a tap on bar [B1]
    followed by a tap on bar [B2] sends pluck and note-on for [B1], then
    pluck and note-on for [B2], and no note-off for either note-on; when the
    two bars have different pitches, both are left sounding. *)
Theorem X17_taps_pile_up `{Vendor}
    (B1 B2 : Z) (on1 lift1 on2 lift2 : list Variant2.Input) :
  on1 <> [] -> Forall (Spec2.on_bar B1) on1 ->
  lift1 <> [] -> Forall Spec2.no_touch lift1 ->
  on2 <> [] -> Forall (Spec2.on_bar B2) on2 ->
  lift2 <> [] -> Forall Spec2.no_touch lift2 ->
  exists tr,
    Spec2.boot (on1 ++ lift1 ++ on2 ++ lift2) Variant2.init
      = Some (tt, Variant2.init, tr) /\
    synth tr =
      Spec2.pluck_synth B1 ++ [setNoteOn 0 (Spec2.note B1) 127] ++
      Spec2.pluck_synth B2 ++ [setNoteOn 0 (Spec2.note B2) 127] /\
    (Spec2.note B1 <> Spec2.note B2 ->
     sounding [] tr = [Spec2.note B2; Spec2.note B1]).
Proof.
  intros N1 F1 NL1 FL1 N2 F2 NL2 FL2.
  assert (0 <= B1 <= 16) as HB1.
  { destruct on1 as [|i ?]; [congruence|]. apply Forall_cons in F1 as [O _].
    apply (Runs2.on_bar_range B1 i O). }
  assert (0 <= B2 <= 16) as HB2.
  { destruct on2 as [|i ?]; [congruence|]. apply Forall_cons in F2 as [O _].
    apply (Runs2.on_bar_range B2 i O). }
  assert (Spec2.wf Variant2.init) as W0 by (split; simpl; lia).
  destruct (Runs2.slide_onto B1 on1 Variant2.init W0 ltac:(simpl; lia) N1 F1)
    as (t1 & E1 & Q1).
  destruct (Runs2.lift_from B1 lift1 HB1 NL1 FL1) as (u1 & EL1 & QL1).
  destruct (Runs2.slide_onto B2 on2 Variant2.init W0 ltac:(simpl; lia) N2 F2)
    as (t2 & E2 & Q2).
  destruct (Runs2.lift_from B2 lift2 HB2 NL2 FL2) as (u2 & EL2 & QL2).
  pose proof (ticks_app_ok _ _ _ _ _ _ _ _ E2 EL2) as E3.
  pose proof (ticks_app_ok _ _ _ _ _ _ _ _ EL1 E3) as E4.
  pose proof (ticks_app_ok _ _ _ _ _ _ _ _ E1 E4) as E5.
  assert (Variant2.setup Variant2.init
          = Some (tt, Variant2.init, trace_of Variant2.setup Variant2.init)) as E0
    by reflexivity.
  assert (synth (trace_of Variant2.setup Variant2.init) = []) as Q0 by reflexivity.
  eexists. unfold Spec2.boot. rewrite (bind_ok _ _ _ _ _ _ _ _ _ E0 E5).
  split; [reflexivity|].
  assert (synth (trace_of Variant2.setup Variant2.init ++ t1 ++ u1 ++ t2 ++ u2)
          = Spec2.pluck_synth B1 ++ [setNoteOn 0 (Spec2.note B1) 127] ++
            Spec2.pluck_synth B2 ++ [setNoteOn 0 (Spec2.note B2) 127]) as Q.
  { rewrite !synth_app, Q0, Q1, QL1, Q2, QL2. reflexivity. }
  split; [exact Q|].
  intros Ne. rewrite <- sounding_synth, Q. unfold Spec2.pluck_synth.
  revert Ne. generalize (Spec2.note B2), (Spec2.note B1).
  intros n2 n1 Ne. unfold sounding. simpl.
  repeat match goal with
         | |- context [?a =? ?a] => rewrite Z.eqb_refl
         | |- context [n1 =? n2] => destruct (Z.eqb_spec n1 n2); [congruence|]
         | _ => progress simpl
         end.
  reflexivity.
Qed.

Lemma X17_taps_pile_up_witness :
  exists tr,
    Spec2.boot (H := midi)
      ([Variant2.mkInput true (60, 100)] ++ [Variant2.mkInput false (-1, -1)] ++
       [Variant2.mkInput true (95, 100)] ++ [Variant2.mkInput false (-1, -1)])
      Variant2.init = Some (tt, Variant2.init, tr) /\
    synth tr =
      Spec2.pluck_synth (H := midi) 3 ++ [setNoteOn 0 64 127] ++
      Spec2.pluck_synth (H := midi) 5 ++ [setNoteOn 0 57 127] /\
    (Spec2.note (H := midi) 3 <> Spec2.note (H := midi) 5 ->
     sounding [] tr = [57; 64]).
Proof.
  apply (X17_taps_pile_up (H := midi) 3 5
           [Variant2.mkInput true (60, 100)] [Variant2.mkInput false (-1, -1)]
           [Variant2.mkInput true (95, 100)] [Variant2.mkInput false (-1, -1)]);
    try discriminate; repeat constructor.
Defined.

(** X18. Variant 1: the touch block runs only when the controller reports a
    change.  While a finger is down, a tick whose report is unchanged sends
    no synth command and keeps the pressed flags, the active tine and the
    pitch, wherever the point lies. *)
Theorem X18_unchanged_touch_is_ignored `{Vendor}
    (s : Variant1.State) (inp : Variant1.Input) :
  Spec1.reachable s ->
  Variant1.Touch_changed inp = false ->
  0 < Variant1.Touch_points inp ->
  exists tr,
    Variant1.loop inp s
      = Some (tt, Spec1.with_prev s (Variant1.loop_semitone_offset inp), tr) /\
    synth tr = [].
Proof.
  intros R C N. pose proof (Tick1.reachable_wf_v1 s R) as W.
  assert (Spec1.fires s inp = false) as F.
  { apply not_true_iff_false. rewrite Runs1.fires_spec. rewrite C. intuition discriminate. }
  exists (Spec1.tick_trace s inp).
  pose proof (Tick1.loop_run_v1 inp s W) as E.
  pose proof (Tick1.tick_synth_v1 s inp W) as Q.
  unfold Spec1.tick_state in E. rewrite F in E, Q.
  destruct (Z.eqb_spec (Variant1.Touch_points inp) 0); [lia|].
  split; [exact E | exact Q].
Qed.

Lemma X18_unchanged_touch_is_ignored_witness :
  exists tr,
    Variant1.loop (H := midi) (Variant1.mkInput false true false 1 (100, 30))
      Variant1.init
      = Some (tt, Spec1.with_prev Variant1.init 1, tr) /\
    synth tr = [].
Proof.
  apply (X18_unchanged_touch_is_ignored (H := midi) Variant1.init
           (Variant1.mkInput false true false 1 (100, 30))).
  - eapply Spec1.reach_setup. vm_compute. reflexivity.
  - reflexivity.
  - reflexivity.
Defined.
